(** * targetShifter: the shift-and-mask engine of [proof_of_concept01.ipynb]

    A shallow embedding of [shift_and_mask_column] and of the oracle
    [check_if_length_correct], together with the tensor primitives they
    call ([torch.unique], [torch.sort], slicing, [torch.isin],
    [torch.where], [torch.roll], [torch.isnan], boolean-mask indexing,
    [torch.column_stack], [Tensor.to], [Tensor.clone]).

    The engine only copies cells, compares time indices and tests cells for
    NaN; it performs no arithmetic on them.  A cell is therefore either the
    NaN sentinel or a number, and a number is represented by an integer:
    time indices and group identifiers are integers in the notebook's
    tables, and a feature or target cell is only ever copied and tested for
    NaN. *)

From Stdlib Require Import ZArith List Bool Lia Permutation Sorted.
Import ListNotations.

Open Scope Z_scope.

(** ** Cells *)

Inductive scalar : Type :=
| NaN : scalar
| Num : Z -> scalar.

Definition isnan (c : scalar) : bool :=
  match c with NaN => true | Num _ => false end.

(** IEEE equality: NaN is equal to nothing, not even to itself. *)
Definition scalar_eqb (a b : scalar) : bool :=
  match a, b with
  | Num x, Num y => x =? y
  | _, _ => false
  end.

(** The order [torch.sort] uses: numbers ascending, NaN after every number. *)
Definition scalar_leb (a b : scalar) : bool :=
  match a, b with
  | Num x, Num y => x <=? y
  | Num _, NaN => true
  | NaN, NaN => true
  | NaN, Num _ => false
  end.

(** ** One-dimensional primitives *)

Module Torch.

(** [torch.sort(v).values] *)
Fixpoint insert (a : scalar) (l : list scalar) : list scalar :=
  match l with
  | [] => [a]
  | b :: l' => if scalar_leb a b then a :: l else b :: insert a l'
  end.

Fixpoint sort (l : list scalar) : list scalar :=
  match l with
  | [] => []
  | a :: l' => insert a (sort l')
  end.

(** Consecutive equal cells of a sorted vector collapse to one. *)
Fixpoint dedup (l : list scalar) : list scalar :=
  match l with
  | [] => []
  | a :: l' =>
      match l' with
      | [] => [a]
      | b :: _ => if scalar_eqb a b then dedup l' else a :: dedup l'
      end
  end.

(** [torch.unique(v)]: the distinct cells of [v], sorted. *)
Definition unique (l : list scalar) : list scalar := dedup (sort l).

(** [torch.isin(elements, test_elements)] *)
Definition isin (elements test_elements : list scalar) : list bool :=
  map (fun e => existsb (scalar_eqb e) test_elements) elements.

(** [torch.full_like(v, c)] *)
Definition full_like (v : list scalar) (c : scalar) : list scalar :=
  repeat c (length v).

(** [torch.where(cond, x, y)] on vectors of one shape. *)
Fixpoint where_ (cond : list bool) (x y : list scalar) : list scalar :=
  match cond, x, y with
  | c :: cond', a :: x', b :: y' => (if c then a else b) :: where_ cond' x' y'
  | _, _, _ => []
  end.

(** [torch.roll(v, shifts, dims=0)]: the cell at position [i] moves to
    position [(i + shifts) mod n]; what falls off one end re-enters at the
    other.  This is [torch.roll] for shifts of machine size; a shift whose
    magnitude, added to the length, leaves the 64-bit range makes
    [torch.roll] raise, and the statements that depend on the magnitude of
    the shift carry [steps_fit] as a hypothesis. *)
Definition roll {A : Type} (v : list A) (shifts : Z) : list A :=
  let n := length v in
  let k := Z.to_nat ((- shifts) mod Z.of_nat n) in
  skipn k v ++ firstn k v.

(** [v[mask]]: the entries of [v] at which the boolean mask is true. *)
Fixpoint mask_select {A : Type} (mask : list bool) (v : list A) : list A :=
  match mask, v with
  | b :: mask', a :: v' =>
      if b then a :: mask_select mask' v' else mask_select mask' v'
  | _, _ => []
  end.

End Torch.

(** ** Python indexing *)

Module Py.

(** [v[:stop]] for a signed [stop]: a negative [stop] counts from the end. *)
Definition slice_to {A : Type} (stop : Z) (v : list A) : list A :=
  if 0 <=? stop then firstn (Z.to_nat stop) v
  else firstn (length v - Z.to_nat (- stop)) v.

(** An index [i] into a dimension of size [n]: negative indices count from
    the end, anything outside [-n, n) is an [IndexError].  This is the
    indexing of indices of machine size; an index beyond the 64-bit range is
    refused by the conversion itself, with another exception, and the
    statements about the kind of error carry [word_sized] as a hypothesis. *)
Definition index (n : nat) (i : Z) : option nat :=
  if (0 <=? i) && (i <? Z.of_nat n) then Some (Z.to_nat i)
  else if (- Z.of_nat n <=? i) && (i <? 0) then Some (Z.to_nat (Z.of_nat n + i))
  else None.

End Py.

(** ** Tensors *)

Inductive device : Type := CPU | CUDA.

(** A two-dimensional tensor of shape [(length rows, ncols)], row-major,
    resident on a device. *)
Record Tensor : Type := mkTensor {
  dev : device;
  ncols : nat;
  rows : list (list scalar)
}.

Definition well_formed (t : Tensor) : Prop :=
  Forall (fun r => length r = ncols t) (rows t).

Definition nrows (t : Tensor) : nat := length (rows t).

(** [r] with its cell at position [c] replaced by [x]. *)
Fixpoint replace_nth (c : nat) (x : scalar) (r : list scalar) : list scalar :=
  match r, c with
  | [], _ => []
  | _ :: r', O => x :: r'
  | a :: r', S c' => a :: replace_nth c' x r'
  end.

(** Column [c] of every row overwritten by the matching entry of [v]
    (the engine only ever writes a vector as long as the table). *)
Fixpoint write_column (c : nat) (v : list scalar) (rs : list (list scalar))
  : list (list scalar) :=
  match rs, v with
  | r :: rs', x :: v' => replace_nth c x r :: write_column c v' rs'
  | _, _ => rs
  end.

(** One more trailing column, filled from [v]. *)
Fixpoint append_column (v : list scalar) (rs : list (list scalar))
  : list (list scalar) :=
  match rs, v with
  | r :: rs', x :: v' => (r ++ [x]) :: append_column v' rs'
  | _, _ => []
  end.

Definition read_column (c : nat) (rs : list (list scalar)) : list scalar :=
  map (fun r => nth c r NaN) rs.

(** [t[:, j]] as a value, [None] when [j] is out of range. *)
Definition column (t : Tensor) (j : Z) : option (list scalar) :=
  match Py.index (ncols t) j with
  | Some c => Some (read_column c (rows t))
  | None => None
  end.

(** ** Effects: exceptions and the caller's tensor

    The only object shared with the caller is the tensor passed as
    [data_org]; it is the state.  A reference held by the function either
    designates that very object or a tensor the function allocated and
    nobody else can reach. *)

Inductive exn : Type := UnboundLocalError | IndexError.

Inductive outcome (A : Type) : Type :=
| Ok : A -> outcome A
| Raise : exn -> outcome A.
Arguments Ok {A} _.
Arguments Raise {A} _.

Definition M (A : Type) : Type := Tensor -> Tensor * outcome A.

Definition ret {A} (a : A) : M A := fun s => (s, Ok a).

Definition raise {A} (e : exn) : M A := fun s => (s, Raise e).

Definition bind {A B} (m : M A) (k : A -> M B) : M B :=
  fun s =>
    match m s with
    | (s', Ok a) => k a s'
    | (s', Raise e) => (s', Raise e)
    end.

Notation "x <- m ;; k" := (bind m (fun x => k))
  (at level 61, m at next level, right associativity).

Inductive ref : Type :=
| Caller : ref
| Private : Tensor -> ref.

Definition load (r : ref) (s : Tensor) : Tensor :=
  match r with Caller => s | Private t => t end.

Definition deref (r : ref) : M Tensor := fun s => (s, Ok (load r s)).

(** In-place update of the object behind [r]. *)
Definition store (r : ref) (t : Tensor) : M ref :=
  match r with
  | Caller => fun _ => (t, Ok Caller)
  | Private _ => ret (Private t)
  end.

(** [r.to('cuda')]: a tensor already on the device is returned as it is,
    the same object; otherwise a copy is made on the device. *)
Definition to_cuda (r : ref) : M ref :=
  t <- deref r ;;
  match dev t with
  | CUDA => ret r
  | CPU => ret (Private (mkTensor CUDA (ncols t) (rows t)))
  end.

(** [r.clone()] *)
Definition clone (r : ref) : M ref :=
  t <- deref r ;; ret (Private t).

(** [r[:, j]] *)
Definition get_column (r : ref) (j : Z) : M (list scalar) :=
  t <- deref r ;;
  match column t j with
  | Some v => ret v
  | None => raise IndexError
  end.

(** [r[:, j] = v] *)
Definition set_column (r : ref) (j : Z) (v : list scalar) : M ref :=
  t <- deref r ;;
  match Py.index (ncols t) j with
  | Some c => store r (mkTensor (dev t) (ncols t) (write_column c v (rows t)))
  | None => raise IndexError
  end.

(** [torch.column_stack([r, v])] *)
Definition column_stack (r : ref) (v : list scalar) : M ref :=
  t <- deref r ;;
  ret (Private (mkTensor (dev t) (S (ncols t)) (append_column v (rows t)))).

(** [r[mask]] *)
Definition select_rows (r : ref) (mask : list bool) : M ref :=
  t <- deref r ;;
  ret (Private (mkTensor (dev t) (ncols t) (Torch.mask_select mask (rows t)))).

(** Reading a local variable that no branch has assigned. *)
Definition local (x : option ref) : M ref :=
  match x with
  | Some r => ret r
  | None => raise UnboundLocalError
  end.

(** ** The shifter *)

(** Lines 282-284: the rows whose time index is among the sliced sorted
    distinct time values.  Both lines read the same column of the same,
    not yet written, table. *)
Definition time_values_mask (time_column : list scalar) (steps : Z) : list bool :=
  let unique_time_idx := Torch.unique time_column in
  let time_values_to_mask := Py.slice_to steps (Torch.sort unique_time_idx) in
  Torch.isin time_column time_values_to_mask.

(** Lines 286-288: mask, then rotate. *)
Definition masked_column_shifted (mask : list bool) (column_to_shift : list scalar)
    (steps : Z) : list scalar :=
  let masked_column_to_shift :=
    Torch.where_ (map negb mask) column_to_shift
      (Torch.full_like column_to_shift NaN) in
  Torch.roll masked_column_to_shift (- steps).

(** Lines 299-301. *)
Definition censor (data : ref) (column_to_shift_idx : Z) (return_full : bool)
  : M ref :=
  if negb return_full then
    target <- get_column data column_to_shift_idx ;;
    let nan_mask := map negb (map isnan target) in
    select_rows data nan_mask
  else ret data.

(** Lines 253-303.  [cuda_is_available] is what
    [torch.cuda.is_available()] answers on the machine; [data_org] is the
    caller's tensor (a NumPy array enters through [torch.from_numpy], which
    shares its memory, and behaves as a CPU tensor).  The timing decorator
    only prints and passes the result through. *)
Definition shift_and_mask_column (cuda_is_available : bool)
    (column_to_shift_idx time_column_idx steps : Z)
    (force_cpu return_full retain_unshifted_col : bool) : M ref :=
  let data_org := Caller in
  data <- (if cuda_is_available && negb force_cpu then
             d <- to_cuda data_org ;; ret (Some d)
           else if force_cpu then
             d <- clone data_org ;; ret (Some d)
           else ret None) ;;
  data <- local data ;;
  time_column <- get_column data time_column_idx ;;
  let mask := time_values_mask time_column steps in
  column_to_shift <- get_column data (- time_column_idx) ;;
  let shifted := masked_column_shifted mask column_to_shift steps in
  data <- (if negb retain_unshifted_col then
             set_column data column_to_shift_idx shifted
           else column_stack data shifted) ;;
  censor data column_to_shift_idx return_full.

(** A call from the caller's side: the caller's tensor after the call, and
    the tensor returned or the exception raised. *)
Definition call (cuda_is_available : bool) (data_org : Tensor)
    (column_to_shift_idx time_column_idx steps : Z)
    (force_cpu return_full retain_unshifted_col : bool)
  : Tensor * outcome Tensor :=
  match shift_and_mask_column cuda_is_available column_to_shift_idx
          time_column_idx steps force_cpu return_full retain_unshifted_col
          data_org with
  | (s, Ok r) => (s, Ok (load r s))
  | (s, Raise e) => (s, Raise e)
  end.

(** The oracle of the notebook's tests. *)
Definition check_if_length_correct (data new_data : Tensor) (steps : Z)
  : outcome bool :=
  match column data 2 with
  | Some group_column =>
      let num_groups := Z.of_nat (length (Torch.unique group_column)) in
      let num_row_censured := num_groups * Z.abs steps in
      let length_diff := Z.of_nat (nrows data) - Z.of_nat (nrows new_data) in
      Ok (length_diff =? num_row_censured)
  | None => Raise IndexError
  end.

(** The working table is the caller's own object exactly when the data are
    moved to a device they already reside on. *)

Definition aliases (cuda_is_available force_cpu : bool) (t : Tensor) : bool :=
  cuda_is_available && negb force_cpu
  && match dev t with CUDA => true | CPU => false end.

Definition not_nan_at (c : nat) (r : list scalar) : bool :=
  negb (isnan (nth c r NaN)).

(** ** Vocabulary of the statements *)

(** The elements of a result, whatever device it resides on. *)
Definition elements (o : outcome Tensor) : outcome (nat * list (list scalar)) :=
  match o with
  | Ok t => Ok (ncols t, rows t)
  | Raise e => Raise e
  end.

(** A vector without NaN. *)
Definition all_num (v : list scalar) : Prop :=
  Forall (fun x => isnan x = false) v.

(** The order of [torch.sort] as a relation, and its strict part on
    numbers. *)
Definition sle (a b : scalar) : Prop := scalar_leb a b = true.

Definition slt (a b : scalar) : Prop :=
  match a, b with
  | Num x, Num y => x < y
  | _, _ => False
  end.

(** The integer held by a number cell. *)
Definition val (a : scalar) : Z :=
  match a with Num x => x | NaN => 0 end.

(** Integers of ordinary machine size, with a margin: no sum of two of
    them leaves the 64-bit range. *)
Definition word_sized (z : Z) : Prop := Z.abs z < 2 ^ 62.

(** A step count that [torch.roll] and the slice of line 283 accept on the
    table [t]: its magnitude and the number of rows add up within the
    range. *)
Definition steps_fit (t : Tensor) (steps : Z) : Prop :=
  Z.abs steps + Z.of_nat (nrows t) < 2 ^ 62.

(** The number of distinct values of [zs] strictly below [z]. *)
Definition distinct_below (zs : list Z) (z : Z) : nat :=
  length (nodup Z.eq_dec (filter (fun u => u <? z) zs)).

(** [z] is one of the [k] smallest distinct values occurring in [zs]. *)
Definition among_smallest (k : nat) (zs : list Z) (z : Z) : Prop :=
  In z zs /\ (distinct_below zs z < k)%nat.

(** [np.tile(v, n)]: the time column of [n] groups that each span [v], in
    a table sorted by group, then time. *)
Definition tile {A : Type} (v : list A) (n : nat) : list A :=
  concat (repeat v n).

(** The time indices of the rows of group [g]. *)
Definition times_of_group (times groups : list Z) (g : Z) : list Z :=
  map fst (filter (fun p => snd p =? g) (combine times groups)).

(** Every group spans the time indices [span], each of them once. *)
Definition uniform_grid (times groups span : list Z) : Prop :=
  NoDup span
  /\ forall g, In g groups -> Permutation (times_of_group times groups g) span.

Definition count_nan (v : list scalar) : nat := length (filter isnan v).

Definition count_true (m : list bool) : nat := length (filter id m).

Definition memb (z : Z) (ks : list Z) : bool := existsb (Z.eqb z) ks.

(** ** Tables used in the examples *)

(** Columns: row identifier, time index, group identifier, feature, target. *)
Definition one_group : Tensor :=
  mkTensor CPU 5
    [ [Num 0; Num 0; Num 0; Num 7; Num 10];
      [Num 1; Num 1; Num 0; Num 8; Num 20];
      [Num 2; Num 2; Num 0; Num 9; Num 30];
      [Num 3; Num 3; Num 0; Num 6; Num 40] ].

Definition target_of (o : outcome Tensor) : option (list scalar) :=
  match o with
  | Ok t => column t (-1)
  | Raise _ => None
  end.

Definition times_of (o : outcome Tensor) : option (list scalar) :=
  match o with
  | Ok t => column t 1
  | Raise _ => None
  end.

(** The same table after the unfiltered shift by one step. *)
Definition one_group_shifted : Tensor :=
  mkTensor CPU 5
    [ [Num 0; Num 0; Num 0; Num 7; Num 20];
      [Num 1; Num 1; Num 0; Num 8; Num 30];
      [Num 2; Num 2; Num 0; Num 9; Num 40];
      [Num 3; Num 3; Num 0; Num 6; NaN] ].

Definition one_group_on_cuda : Tensor :=
  mkTensor CUDA (ncols one_group) (rows one_group).

(** Columns: row identifier, time index, the same time index again,
    feature, target. *)
Definition two_clocks : Tensor :=
  mkTensor CPU 5
    [ [Num 0; Num 0; Num 0; Num 7; Num 10];
      [Num 1; Num 1; Num 1; Num 8; Num 20];
      [Num 2; Num 2; Num 2; Num 9; Num 30];
      [Num 3; Num 3; Num 3; Num 6; Num 40] ].

(** Two groups of three time steps each. *)
Definition two_groups : Tensor :=
  mkTensor CPU 5
    [ [Num 0; Num 0; Num 0; Num 7; Num 10];
      [Num 1; Num 1; Num 0; Num 8; Num 20];
      [Num 2; Num 2; Num 0; Num 9; Num 30];
      [Num 3; Num 0; Num 1; Num 6; Num 40];
      [Num 4; Num 1; Num 1; Num 5; Num 50];
      [Num 5; Num 2; Num 1; Num 4; Num 60] ].

(** The first two groups of the table printed by [viz_test(2)] in the
    notebook, cells in ten-thousandths. *)
Definition viz_test_2_input : Tensor :=
  mkTensor CPU 5
    [ [Num 0; Num 0; Num 0; Num 7917; Num 7443];
      [Num 10000; Num 10000; Num 0; Num 465; Num 1550];
      [Num 20000; Num 20000; Num 0; Num 4313; Num 229];
      [Num 30000; Num 30000; Num 0; Num 2962; Num 1394];
      [Num 40000; Num 0; Num 10000; Num 968; Num 4952];
      [Num 50000; Num 10000; Num 10000; Num 5813; Num 9874];
      [Num 60000; Num 20000; Num 10000; Num 8565; Num 3835];
      [Num 70000; Num 30000; Num 10000; Num 2171; Num 9790] ].

(** * The utilities of the notebook *)

(** ** NumPy and index primitives *)

Module Np.

(** [np.arange(n)] *)
Definition arange (n : nat) : list Z := map Z.of_nat (seq 0 n).

(** [np.repeat(v, n)]: every entry [n] times in a row. *)
Definition repeat_each {A : Type} (v : list A) (n : nat) : list A :=
  flat_map (fun x => repeat x n) v.

(** Strict part of the order of the sorts. *)
Definition scalar_ltb (a b : scalar) : bool :=
  scalar_leb a b && negb (scalar_leb b a).

(** The comparison behind [np.lexsort((secondary, primary))] on two
    positions: the last key decides, the first key breaks its ties. *)
Definition lex_leb (secondary primary : list scalar) (i j : nat) : bool :=
  let pi := nth i primary NaN in
  let pj := nth j primary NaN in
  if scalar_ltb pi pj then true
  else if scalar_ltb pj pi then false
  else scalar_leb (nth i secondary NaN) (nth j secondary NaN).

Fixpoint insert_by (leb : nat -> nat -> bool) (i : nat) (l : list nat)
  : list nat :=
  match l with
  | [] => [i]
  | j :: l' => if leb i j then i :: l else j :: insert_by leb i l'
  end.

(** A stable sort of positions. *)
Definition isort (leb : nat -> nat -> bool) (l : list nat) : list nat :=
  fold_right (insert_by leb) [] l.

(** [np.lexsort((secondary, primary))]: the positions in sorted order,
    ties in their original order. *)
Definition lexsort (secondary primary : list scalar) : list nat :=
  isort (lex_leb secondary primary) (seq 0 (length primary)).

End Np.

(** [t[indices]]: the rows of [t] at the given positions, a new tensor on
    the device of [t]. *)
Definition index_rows (t : Tensor) (indices : list nat) : Tensor :=
  mkTensor (dev t) (ncols t) (map (fun i => nth i (rows t) []) indices).

(** ** [sort_tensor_by_indices], lines 63-90 *)

(** What line 85 can raise: an index out of range for the columns, or the
    refusal of a tensor on the accelerator to become a NumPy array. *)
Inductive sort_exn : Type := SortIndexError | SortTypeError.

Definition sort_tensor_by_indices (tensor : Tensor)
    (primary_index secondary_index : Z) : Tensor + sort_exn :=
  match column tensor secondary_index with
  | None => inr SortIndexError
  | Some secondary =>
      match column tensor primary_index with
      | None => inr SortIndexError
      | Some primary =>
          match dev tensor with
          | CUDA => inr SortTypeError
          | CPU =>
              let sorted_indices := Np.lexsort secondary primary in
              inl (index_rows tensor sorted_indices)
          end
      end
  end.

(** ** [shuffle_tensor_rows], lines 100-117

    [random_indices] is what [torch.randperm(tensor.size(0))] drew. *)
Definition shuffle_tensor_rows (random_indices : list nat) (tensor : Tensor)
  : Tensor :=
  index_rows tensor random_indices.

(** ** [generate_synthetic_temporal_dataset], lines 198-231

    [feature_array] and [target_array] are what the two calls of
    [np.random.rand] drew, by row (and column). *)
Definition generate_synthetic_temporal_dataset
    (feature_array : nat -> nat -> Z) (target_array : nat -> Z)
    (num_groups num_time_steps num_features : nat) : Tensor :=
  let n_rows := (num_groups * num_time_steps)%nat in
  let group_array := Np.repeat_each (Np.arange num_groups) num_time_steps in
  let time_array := tile (Np.arange num_time_steps) num_groups in
  let indx_array := Np.arange n_rows in
  mkTensor CPU (3 + num_features + 1)
    (map (fun i =>
            [Num (nth i indx_array 0); Num (nth i time_array 0);
             Num (nth i group_array 0)]
            ++ map (fun j => Num (feature_array i j)) (seq 0 num_features)
            ++ [Num (target_array i)])
         (seq 0 n_rows)).

(** ** [check_if_subset], lines 127-153 *)

(** Entrywise sum of two columns.  The sum of two numbers is a function of
    the two, [fadd]; NaN absorbs. *)
Fixpoint add_columns (fadd : Z -> Z -> Z) (x y : list scalar) : list scalar :=
  match x, y with
  | a :: x', b :: y' =>
      match a, b with
      | Num u, Num v => Num (fadd u v)
      | _, _ => NaN
      end :: add_columns fadd x' y'
  | _, _ => []
  end.

Definition check_if_subset (fadd : Z -> Z -> Z) (data new_data : Tensor)
  : outcome bool :=
  match column data 2, column data (-1) with
  | Some group_column, Some target_column =>
      let sum_col := add_columns fadd group_column target_column in
      match column new_data 2, column new_data (-1) with
      | Some new_group_column, Some new_target_column =>
          let new_sum_col :=
            add_columns fadd new_group_column new_target_column in
          let is_subset := forallb id (Torch.isin new_sum_col sum_col) in
          Ok is_subset
      | _, _ => Raise IndexError
      end
  | _, _ => Raise IndexError
  end.

(** ** Vocabulary of the statements about the utilities *)

(** The order of the sort on two rows, keyed by columns [p] then [s]. *)
Definition key_leb (p s : nat) (r1 r2 : list scalar) : bool :=
  let p1 := nth p r1 NaN in
  let p2 := nth p r2 NaN in
  if Np.scalar_ltb p1 p2 then true
  else if Np.scalar_ltb p2 p1 then false
  else scalar_leb (nth s r1 NaN) (nth s r2 NaN).

(** Rows in ascending order of column [p], ties in ascending order of
    column [s]. *)
Definition rows_sorted (p s : nat) (rs : list (list scalar)) : Prop :=
  StronglySorted (fun r1 r2 => key_leb p s r1 r2 = true) rs.

(** No two different rows tie on the pair of key columns. *)
Definition keys_distinct (p s : nat) (rs : list (list scalar)) : Prop :=
  forall r1 r2, In r1 rs -> In r2 rs ->
    key_leb p s r1 r2 = true -> key_leb p s r2 r1 = true -> r1 = r2.

(** A small draw for the examples. *)
Definition sample_features (i j : nat) : Z := Z.of_nat (7 * i + j).

Definition sample_targets (i : nat) : Z := Z.of_nat (10 * (i + 1)).

(** * Properties *)

(** ** The primitives on small inputs *)

Example roll_down : Torch.roll [1; 2; 3; 4] 1 = [4; 1; 2; 3].
Proof. reflexivity. Qed.

Example roll_up : Torch.roll [1; 2; 3; 4] (-1) = [2; 3; 4; 1].
Proof. reflexivity. Qed.

Example slice_negative : Py.slice_to (-1) [1; 2; 3] = [1; 2].
Proof. reflexivity. Qed.

Example unique_sorted :
  Torch.unique [Num 2; Num 0; Num 1; Num 0; Num 2] = [Num 0; Num 1; Num 2].
Proof. reflexivity. Qed.

(** The call of [viz_test(2)] reproduces the column the notebook printed:
    the target of two periods later, NaN in the last two rows of a group. *)
Example viz_test_2_output :
  match snd (call false viz_test_2_input (-1) 1 2 true true true) with
  | Ok out => column out (-1)
  | Raise _ => None
  end
  = Some [Num 229; Num 1394; NaN; NaN; Num 3835; Num 9790; NaN; NaN].
Proof. reflexivity. Qed.

(** ** Basic facts about the primitives *)

Lemma mask_select_not_nan (c : nat) (rs : list (list scalar)) :
  Torch.mask_select (map negb (map isnan (read_column c rs))) rs
  = filter (fun r => negb (isnan (nth c r NaN))) rs.
Proof.
  induction rs as [|r rs IH]; simpl; [reflexivity|].
  destruct (isnan (nth c r NaN)); simpl; rewrite IH; reflexivity.
Qed.

(** Case analysis on the comparisons inside [Py.index]. *)
Ltac index_cases n j :=
  unfold Py.index;
  destruct (Z.leb_spec 0 j); destruct (Z.ltb_spec j (Z.of_nat n));
  destruct (Z.leb_spec (- Z.of_nat n) j); destruct (Z.ltb_spec j 0);
  simpl; try lia.

Lemma index_some_lt (n : nat) (j : Z) (c : nat) :
  Py.index n j = Some c -> (c < n)%nat.
Proof.
  index_cases n j; intros [= <-]; lia.
Qed.

Lemma index_succ (n : nat) (j : Z) :
  Py.index n j <> None -> Py.index (S n) j <> None.
Proof.
  unfold Py.index.
  destruct (Z.leb_spec 0 j); destruct (Z.ltb_spec j (Z.of_nat n));
  destruct (Z.leb_spec (- Z.of_nat n) j); destruct (Z.ltb_spec j 0);
  destruct (Z.ltb_spec j (Z.of_nat (S n)));
  destruct (Z.leb_spec (- Z.of_nat (S n)) j); simpl; try lia; congruence.
Qed.

(** ** Running the shifter *)

(** Unfolds the monadic plumbing of a run, leaving the primitives. *)
Ltac run :=
  repeat (progress (
    cbv beta iota zeta delta
      [call shift_and_mask_column bind to_cuda clone deref ret local column
       get_column set_column censor select_rows column_stack store raise load];
    cbn [negb andb orb ncols rows dev])).

Lemma call_overwrite cuda t cidx tidx steps force_cpu return_full
    time_column column_to_shift c :
  cuda || force_cpu = true ->
  column t tidx = Some time_column ->
  column t (- tidx) = Some column_to_shift ->
  Py.index (ncols t) cidx = Some c ->
  let shifted :=
    masked_column_shifted (time_values_mask time_column steps)
      column_to_shift steps in
  let written := write_column c shifted (rows t) in
  exists out,
    call cuda t cidx tidx steps force_cpu return_full false
    = (if aliases cuda force_cpu t then mkTensor (dev t) (ncols t) written
       else t, Ok out)
    /\ ncols out = ncols t
    /\ rows out = if return_full then written
                  else filter (not_nan_at c) written.
Proof.
  intros Hp Ht Hs Hc shifted written.
  unfold aliases. destruct t as [d n rs].
  unfold column in Ht, Hs. cbn [ncols rows dev] in *.
  destruct cuda, force_cpu, return_full, d; try discriminate.
  all: repeat (progress (run; rewrite ?Ht, ?Hs, ?Hc)).
  all: eexists; split; [reflexivity|]; split; [reflexivity|]; cbn [rows].
  all: try reflexivity; apply mask_select_not_nan.
Qed.

Lemma call_append cuda t cidx tidx steps force_cpu return_full
    time_column column_to_shift c :
  cuda || force_cpu = true ->
  column t tidx = Some time_column ->
  column t (- tidx) = Some column_to_shift ->
  return_full = true \/ Py.index (S (ncols t)) cidx = Some c ->
  let shifted :=
    masked_column_shifted (time_values_mask time_column steps)
      column_to_shift steps in
  let stacked := append_column shifted (rows t) in
  exists out,
    call cuda t cidx tidx steps force_cpu return_full true = (t, Ok out)
    /\ ncols out = S (ncols t)
    /\ rows out = if return_full then stacked
                  else filter (not_nan_at c) stacked.
Proof.
  intros Hp Ht Hs Hc shifted stacked.
  destruct t as [d n rs].
  unfold column in Ht, Hs. cbn [ncols rows dev] in *.
  destruct cuda, force_cpu, return_full, d; try discriminate.
  all: destruct Hc as [Hc|Hc]; try discriminate.
  all: repeat (progress (run; rewrite ?Ht, ?Hs, ?Hc)).
  all: eexists; split; [reflexivity|]; split; [reflexivity|]; cbn [rows].
  all: try reflexivity; apply mask_select_not_nan.
Qed.

(** No branch assigns [data] when there is no accelerator and the CPU is
    not forced. *)
Lemma call_unbound t cidx tidx steps return_full retain :
  call false t cidx tidx steps false return_full retain
  = (t, Raise UnboundLocalError).
Proof. reflexivity. Qed.

Lemma call_bad_time_column cuda t cidx tidx steps force_cpu return_full retain :
  cuda || force_cpu = true ->
  column t tidx = None \/ column t (- tidx) = None ->
  call cuda t cidx tidx steps force_cpu return_full retain
  = (t, Raise IndexError).
Proof.
  intros Hp Hi. destruct t as [d n rs].
  unfold column in Hi. cbn [ncols rows dev] in *.
  destruct (Py.index n tidx) eqn:Ht;
    destruct (Py.index n (- tidx)) eqn:Hs;
    try (destruct Hi; discriminate).
  all: destruct cuda, force_cpu, d; try discriminate.
  all: repeat (progress (run; rewrite ?Ht, ?Hs)); reflexivity.
Qed.

Lemma call_bad_target_column cuda t cidx tidx steps force_cpu return_full :
  cuda || force_cpu = true ->
  column t tidx <> None ->
  column t (- tidx) <> None ->
  Py.index (ncols t) cidx = None ->
  call cuda t cidx tidx steps force_cpu return_full false
  = (t, Raise IndexError).
Proof.
  intros Hp Ht Hs Hc. destruct t as [d n rs].
  unfold column in Ht, Hs. cbn [ncols rows dev] in *.
  destruct (Py.index n tidx) eqn:Et; [|congruence].
  destruct (Py.index n (- tidx)) eqn:Es; [|congruence].
  destruct cuda, force_cpu, d; try discriminate.
  all: repeat (progress (run; rewrite ?Et, ?Es, ?Hc)); reflexivity.
Qed.

(** ** Columns of a rectangular table *)

Lemma replace_nth_same c r : replace_nth c (nth c r NaN) r = r.
Proof.
  revert c; induction r as [|a r IH]; intros [|c]; simpl; try reflexivity.
  now rewrite IH.
Qed.

Lemma nth_replace_nth_eq c x r :
  (c < length r)%nat -> nth c (replace_nth c x r) NaN = x.
Proof.
  revert c; induction r as [|a r IH]; intros [|c]; simpl; intros H;
    try lia; auto. apply IH; lia.
Qed.

Lemma nth_replace_nth_neq c c' x r :
  c <> c' -> nth c' (replace_nth c x r) NaN = nth c' r NaN.
Proof.
  revert c c'; induction r as [|a r IH]; intros [|c] [|c'] H; simpl;
    try reflexivity; try congruence. apply IH; congruence.
Qed.

Lemma read_column_length c rs : length (read_column c rs) = length rs.
Proof. apply length_map. Qed.

Lemma write_column_read c rs : write_column c (read_column c rs) rs = rs.
Proof.
  induction rs as [|r rs IH]; simpl; [reflexivity|].
  now rewrite replace_nth_same, IH.
Qed.

Lemma write_column_length c v rs : length (write_column c v rs) = length rs.
Proof.
  revert v; induction rs as [|r rs IH]; intros [|x v]; simpl; auto.
Qed.

Lemma read_write_column c v rs :
  length v = length rs ->
  Forall (fun r => (c < length r)%nat) rs ->
  read_column c (write_column c v rs) = v.
Proof.
  revert v; induction rs as [|r rs IH]; intros [|x v] Hl Hf; simpl in *;
    try discriminate; [reflexivity|].
  inversion Hf; subst. rewrite nth_replace_nth_eq by assumption.
  f_equal. apply IH; [lia|assumption].
Qed.

Lemma read_write_column_other c c' v rs :
  c <> c' -> read_column c' (write_column c v rs) = read_column c' rs.
Proof.
  intros Hne. revert v; induction rs as [|r rs IH]; intros [|x v]; simpl;
    try reflexivity.
  now rewrite nth_replace_nth_neq, IH.
Qed.

Lemma append_column_length v rs :
  length v = length rs -> length (append_column v rs) = length rs.
Proof.
  revert v; induction rs as [|r rs IH]; intros [|x v] H; simpl in *;
    try discriminate; auto.
Qed.

Lemma read_append_column_new n v rs :
  length v = length rs ->
  Forall (fun r => length r = n) rs ->
  read_column n (append_column v rs) = v.
Proof.
  revert v; induction rs as [|r rs IH]; intros [|x v] Hl Hf; simpl in *;
    try discriminate; [reflexivity|].
  inversion Hf; subst. rewrite app_nth2, Nat.sub_diag by lia. simpl.
  f_equal. apply IH; [lia|assumption].
Qed.

Lemma read_append_column_old c n v rs :
  (c < n)%nat ->
  length v = length rs ->
  Forall (fun r => length r = n) rs ->
  read_column c (append_column v rs) = read_column c rs.
Proof.
  intros Hc. revert v; induction rs as [|r rs IH]; intros [|x v] Hl Hf;
    simpl in *; try discriminate; [reflexivity|].
  inversion Hf; subst. rewrite app_nth1 by lia.
  f_equal. apply IH; [lia|assumption].
Qed.

Lemma filter_all {A} (f : A -> bool) l :
  Forall (fun x => f x = true) l -> filter f l = l.
Proof.
  induction 1 as [|x l Hx _ IH]; simpl; [reflexivity|].
  now rewrite Hx, IH.
Qed.

(** ** Masking and rotating *)

Lemma where_length cond x y :
  length cond = length x -> length y = length x ->
  length (Torch.where_ cond x y) = length x.
Proof.
  revert x y; induction cond as [|c cond IH]; intros [|a x] [|b y] H1 H2;
    simpl in *; try discriminate; auto.
Qed.

Lemma where_unmasked x y :
  length y = length x ->
  Torch.where_ (map negb (repeat false (length x))) x y = x.
Proof.
  revert y; induction x as [|a x IH]; intros [|b y] H; simpl in *;
    try discriminate; [reflexivity|].
  f_equal. apply IH. lia.
Qed.

Lemma full_like_length v c : length (Torch.full_like v c) = length v.
Proof. apply repeat_length. Qed.

Lemma roll_zero {A} (v : list A) : Torch.roll v 0 = v.
Proof.
  unfold Torch.roll. rewrite Z.opp_0, Zmod_0_l. simpl. apply app_nil_r.
Qed.

Lemma mask_zero_steps time_column :
  time_values_mask time_column 0 = repeat false (length time_column).
Proof.
  unfold time_values_mask, Py.slice_to, Torch.isin. simpl.
  induction time_column as [|a l IH]; simpl; [reflexivity|now rewrite IH].
Qed.

Lemma shifted_zero_steps time_column column_to_shift :
  length time_column = length column_to_shift ->
  masked_column_shifted (time_values_mask time_column 0) column_to_shift 0
  = column_to_shift.
Proof.
  intros Hl. unfold masked_column_shifted.
  rewrite mask_zero_steps, Hl. simpl. rewrite roll_zero.
  apply where_unmasked, full_like_length.
Qed.

Lemma column_length t j v : column t j = Some v -> length v = nrows t.
Proof.
  unfold column. destruct (Py.index (ncols t) j); [|discriminate].
  intros [= <-]. apply read_column_length.
Qed.

Lemma index_last n : Py.index (S n) (-1) = Some n.
Proof.
  unfold Py.index.
  destruct (Z.leb_spec 0 (-1)); [lia|].
  destruct (Z.leb_spec (- Z.of_nat (S n)) (-1)); [|lia].
  destruct (Z.ltb_spec (-1) 0); [|lia].
  cbn [andb]. f_equal. lia.
Qed.

Lemma index_defined n j : Py.index n j <> None -> exists c, Py.index n j = Some c.
Proof. destruct (Py.index n j) as [c|]; [eauto|congruence]. Qed.

Lemma inner_index_defined n j :
  - Z.of_nat n < j < Z.of_nat n ->
  Py.index n j <> None /\ Py.index n (- j) <> None.
Proof.
  intros H. unfold Py.index.
  destruct (Z.leb_spec 0 j); destruct (Z.ltb_spec j (Z.of_nat n));
  destruct (Z.leb_spec (- Z.of_nat n) j); destruct (Z.ltb_spec j 0);
  destruct (Z.leb_spec 0 (- j)); destruct (Z.ltb_spec (- j) (Z.of_nat n));
  destruct (Z.leb_spec (- Z.of_nat n) (- j)); destruct (Z.ltb_spec (- j) 0);
  simpl; try lia; split; discriminate.
Qed.

Lemma not_nan_rows c rs :
  Forall (fun x => isnan x = false) (read_column c rs) ->
  Forall (fun r => not_nan_at c r = true) rs.
Proof.
  unfold read_column, not_nan_at. rewrite Forall_map.
  apply Forall_impl. intros r ->. reflexivity.
Qed.

(** ** Sorting and distinct values *)

Lemma scalar_leb_total a b : scalar_leb a b = false -> sle b a.
Proof.
  unfold sle. destruct a, b; simpl; try reflexivity; try discriminate.
  intros H. apply Z.leb_gt in H. apply Z.leb_le. lia.
Qed.

Lemma sle_trans a b c : sle a b -> sle b c -> sle a c.
Proof.
  unfold sle. destruct a, b, c; simpl; try reflexivity; try discriminate.
  intros H1 H2. apply Z.leb_le in H1, H2. apply Z.leb_le. lia.
Qed.

Lemma insert_perm a l : Permutation (Torch.insert a l) (a :: l).
Proof.
  induction l as [|b l IH]; simpl; [reflexivity|].
  destruct (scalar_leb a b); [reflexivity|].
  rewrite IH. apply perm_swap.
Qed.

Lemma sort_perm l : Permutation (Torch.sort l) l.
Proof.
  induction l as [|a l IH]; simpl; [reflexivity|].
  rewrite insert_perm. now constructor.
Qed.

Lemma insert_sorted a l :
  StronglySorted sle l -> StronglySorted sle (Torch.insert a l).
Proof.
  induction 1 as [|b l Hs IH Hb]; simpl.
  - repeat constructor.
  - destruct (scalar_leb a b) eqn:E.
    + constructor; [constructor; assumption|].
      constructor; [exact E|].
      eapply Forall_impl; [|exact Hb]. intros c Hc.
      eapply sle_trans; [exact E|exact Hc].
    + constructor; [exact IH|].
      rewrite insert_perm. constructor; [|exact Hb].
      now apply scalar_leb_total.
Qed.

Lemma sort_sorted l : StronglySorted sle (Torch.sort l).
Proof.
  induction l as [|a l IH]; simpl; [constructor|now apply insert_sorted].
Qed.

Lemma all_num_perm l l' : Permutation l l' -> all_num l -> all_num l'.
Proof. intros Hp. unfold all_num. now rewrite Hp. Qed.

Lemma dedup_incl l x : In x (Torch.dedup l) -> In x l.
Proof.
  induction l as [|a l IH]; simpl; [auto|].
  destruct l as [|b l']; [auto|].
  destruct (scalar_eqb a b); simpl; intros H; [right; apply IH, H|].
  destruct H as [H|H]; [auto|right; apply IH, H].
Qed.

Lemma scalar_eqb_eq a b : scalar_eqb a b = true -> a = b.
Proof.
  destruct a, b; simpl; try discriminate.
  intros H. apply Z.eqb_eq in H. now subst.
Qed.

Lemma dedup_complete l x : all_num l -> In x l -> In x (Torch.dedup l).
Proof.
  induction l as [|a l IH]; simpl; [auto|].
  intros Hn Hin. inversion Hn as [|? ? Ha Hl]; subst.
  destruct l as [|b l']; [exact Hin|].
  destruct (scalar_eqb a b) eqn:E.
  - apply IH; [exact Hl|]. destruct Hin as [<-|Hin]; [|exact Hin].
    apply scalar_eqb_eq in E. subst. now left.
  - destruct Hin as [<-|Hin]; [now left|]. right. now apply IH.
Qed.

Lemma sle_neq_slt a b :
  isnan a = false -> isnan b = false -> sle a b -> scalar_eqb a b = false ->
  slt a b.
Proof.
  unfold sle. destruct a, b; simpl; try discriminate.
  intros _ _ H1 H2. apply Z.leb_le in H1. apply Z.eqb_neq in H2. lia.
Qed.

Lemma slt_sle_trans a b c : slt a b -> sle b c -> isnan c = false -> slt a c.
Proof.
  unfold sle. destruct a, b, c; simpl; try tauto; try discriminate.
  intros H1 H2 _. apply Z.leb_le in H2. lia.
Qed.

Lemma dedup_strict l :
  all_num l -> StronglySorted sle l -> StronglySorted slt (Torch.dedup l).
Proof.
  induction l as [|a l IH]; simpl; [constructor|].
  intros Hn Hs. inversion Hn as [|? ? Ha Hl]; subst.
  inversion Hs as [|? ? Hs' Hall]; subst.
  destruct l as [|b l']; [repeat constructor|].
  destruct (scalar_eqb a b) eqn:E; [now apply IH|].
  constructor; [now apply IH|].
  apply Forall_forall. intros x Hx. apply dedup_incl in Hx.
  inversion Hl as [|? ? Hb Hl']; subst.
  inversion Hall as [|? ? Hab Hal']; subst.
  assert (Hlt : slt a b) by now apply sle_neq_slt.
  destruct Hx as [<-|Hx]; [exact Hlt|].
  inversion Hs' as [|? ? _ Hbl]; subst.
  eapply slt_sle_trans; [exact Hlt| |].
  - rewrite Forall_forall in Hbl. now apply Hbl.
  - unfold all_num in Hl'. rewrite Forall_forall in Hl'. now apply Hl'.
Qed.

Lemma slt_irrefl a : ~ slt a a.
Proof. destruct a; simpl; lia. Qed.

Lemma strict_nodup l : StronglySorted slt l -> NoDup l.
Proof.
  induction 1 as [|a l Hs IH Ha]; constructor; [|exact IH].
  intros Hin. rewrite Forall_forall in Ha. exact (slt_irrefl a (Ha a Hin)).
Qed.

Lemma sle_sorted_nodup_strict l :
  all_num l -> NoDup l -> StronglySorted sle l -> StronglySorted slt l.
Proof.
  induction l as [|a l IH]; [constructor|].
  intros Hn Hd Hs.
  inversion Hn as [|? ? Ha Hl]; subst.
  inversion Hd as [|? ? Hnotin Hd']; subst.
  inversion Hs as [|? ? Hs' Hall]; subst.
  constructor; [now apply IH|].
  apply Forall_forall. intros x Hx.
  rewrite Forall_forall in Hall. unfold all_num in Hl.
  rewrite Forall_forall in Hl.
  apply sle_neq_slt; auto.
  destruct (scalar_eqb a x) eqn:E; [|reflexivity].
  apply scalar_eqb_eq in E. subst. contradiction.
Qed.

(** The vector sliced by line 283: strictly increasing, with the same
    members as the column it was computed from. *)
Lemma sorted_unique_spec l :
  all_num l ->
  let d := Torch.sort (Torch.unique l) in
  all_num d /\ StronglySorted slt d /\ forall x, In x d <-> In x l.
Proof.
  intros Hn d.
  assert (Hns : all_num (Torch.sort l))
    by (eapply all_num_perm; [symmetry; apply sort_perm|exact Hn]).
  assert (Hu : StronglySorted slt (Torch.unique l))
    by (apply dedup_strict; [exact Hns|apply sort_sorted]).
  assert (Hnu : all_num (Torch.unique l)).
  { unfold all_num in *. rewrite Forall_forall in *.
    intros x Hx. apply Hns. now apply dedup_incl. }
  assert (Hpd : Permutation d (Torch.unique l)) by apply sort_perm.
  assert (Hnd : all_num d)
    by (eapply all_num_perm; [symmetry; exact Hpd|exact Hnu]).
  split; [exact Hnd|]. split.
  - apply sle_sorted_nodup_strict; [exact Hnd| |apply sort_sorted].
    eapply Permutation_NoDup; [symmetry; exact Hpd|].
    now apply strict_nodup.
  - intros x. split; intros H.
    + eapply Permutation_in in H; [|exact Hpd].
      apply dedup_incl in H.
      eapply Permutation_in; [apply sort_perm|exact H].
    + eapply Permutation_in; [symmetry; exact Hpd|].
      apply dedup_complete; [exact Hns|].
      eapply Permutation_in; [symmetry; apply sort_perm|exact H].
Qed.

Lemma all_num_map_num zs : all_num (map Num zs).
Proof. unfold all_num. rewrite Forall_map. now apply Forall_forall. Qed.

Lemma num_of_val l : all_num l -> l = map Num (map val l).
Proof.
  induction 1 as [|a l Ha _ IH]; simpl; [reflexivity|].
  destruct a; [discriminate|]. simpl. now rewrite <- IH.
Qed.

Lemma strict_vals l :
  StronglySorted slt l -> StronglySorted Z.lt (map val l).
Proof.
  induction 1 as [|a l Hs IH Ha]; simpl; constructor; [exact IH|].
  rewrite Forall_map. eapply Forall_impl; [|exact Ha].
  intros b. destruct a, b; simpl; tauto.
Qed.

Lemma in_map_num z zs : In (Num z) (map Num zs) <-> In z zs.
Proof.
  rewrite in_map_iff. split.
  - intros (y & [= ->] & H). exact H.
  - intros H. eauto.
Qed.

(** The distinct time values of a NaN-free column, as integers. *)
Lemma sorted_unique_values zs :
  exists ds,
    Torch.sort (Torch.unique (map Num zs)) = map Num ds
    /\ StronglySorted Z.lt ds
    /\ forall z, In z ds <-> In z zs.
Proof.
  destruct (sorted_unique_spec (map Num zs) (all_num_map_num zs))
    as (Hn & Hs & Hin).
  exists (map val (Torch.sort (Torch.unique (map Num zs)))).
  split; [now apply num_of_val|]. split; [now apply strict_vals|].
  intros z. rewrite <- in_map_num, <- num_of_val by exact Hn.
  rewrite Hin. apply in_map_num.
Qed.

Lemma filter_below_least z ds :
  Forall (Z.lt z) ds -> filter (fun u => u <? z) ds = [].
Proof.
  induction 1 as [|d ds Hd _ IH]; simpl; [reflexivity|].
  destruct (Z.ltb_spec d z); [lia|exact IH].
Qed.

(** In a strictly increasing list, the first [k] entries are those with
    fewer than [k] entries below them. *)
Lemma in_firstn_sorted k ds z :
  StronglySorted Z.lt ds -> In z ds ->
  In z (firstn k ds) <-> (length (filter (fun u => Z.ltb u z) ds) < k)%nat.
Proof.
  intros Hs. revert k. induction Hs as [|d ds Hs IH Hd]; intros k Hin.
  - destruct Hin.
  - destruct k as [|k]; simpl.
    + split; [tauto|lia].
    + destruct (Z.ltb_spec d z) as [Hlt|Hge].
      * destruct Hin as [->|Hin]; [lia|].
        simpl. rewrite <- Nat.succ_lt_mono, <- (IH k Hin).
        split; [intros [->|H]; [lia|exact H]|auto].
      * assert (z = d) as ->.
        { destruct Hin as [->|Hin]; [reflexivity|].
          rewrite Forall_forall in Hd. specialize (Hd z Hin). lia. }
        rewrite filter_below_least by exact Hd. simpl. split; [lia|auto].
Qed.

Lemma strict_nodup_Z ds : StronglySorted Z.lt ds -> NoDup ds.
Proof.
  induction 1 as [|a l Hs IH Ha]; constructor; [|exact IH].
  intros Hin. rewrite Forall_forall in Ha. specialize (Ha a Hin). lia.
Qed.

Lemma distinct_below_sorted ds zs z :
  NoDup ds -> (forall x, In x ds <-> In x zs) ->
  length (filter (fun u => u <? z) ds) = distinct_below zs z.
Proof.
  intros Hd Hin. unfold distinct_below. apply Permutation_length.
  apply NoDup_Permutation.
  - now apply NoDup_filter.
  - apply NoDup_nodup.
  - intros x. rewrite nodup_In, !filter_In, Hin. reflexivity.
Qed.

Lemma isin_nth zs test i :
  (i < length zs)%nat ->
  nth i (Torch.isin (map Num zs) test) false
  = existsb (scalar_eqb (Num (nth i zs 0))) test.
Proof.
  intros Hi. unfold Torch.isin. rewrite map_map.
  rewrite (nth_indep _ false (existsb (scalar_eqb (Num 0)) test))
    by (now rewrite length_map).
  now rewrite (map_nth (fun z => existsb (scalar_eqb (Num z)) test)).
Qed.

Lemma existsb_num z ks :
  existsb (scalar_eqb (Num z)) (map Num ks) = true <-> In z ks.
Proof.
  rewrite existsb_exists. split.
  - intros (x & Hx & He). apply scalar_eqb_eq in He. subst.
    now apply in_map_num.
  - intros H. exists (Num z). split; [now apply in_map_num|].
    simpl. apply Z.eqb_refl.
Qed.

Lemma slice_to_nonneg {A} steps (v : list A) :
  0 <= steps -> Py.slice_to steps v = firstn (Z.to_nat steps) v.
Proof.
  intros H. unfold Py.slice_to. destruct (Z.leb_spec 0 steps); [reflexivity|lia].
Qed.

(** The mask of a NaN-free time column, for a non-negative step count. *)
Lemma mask_nth zs steps i :
  0 <= steps -> (i < length zs)%nat ->
  exists ds,
    StronglySorted Z.lt ds /\ (forall z, In z ds <-> In z zs)
    /\ (nth i (time_values_mask (map Num zs) steps) false = true
        <-> In (nth i zs 0) (firstn (Z.to_nat steps) ds)).
Proof.
  intros Hs Hi. destruct (sorted_unique_values zs) as (ds & Hd & Hsd & Hin).
  exists ds. split; [exact Hsd|]. split; [exact Hin|].
  unfold time_values_mask. rewrite Hd, slice_to_nonneg by exact Hs.
  rewrite isin_nth by exact Hi. rewrite firstn_map. apply existsb_num.
Qed.

(** ** Counting censored rows *)

Lemma roll_perm {A} (v : list A) shifts : Permutation (Torch.roll v shifts) v.
Proof.
  unfold Torch.roll. rewrite Permutation_app_comm. now rewrite firstn_skipn.
Qed.

Lemma roll_length {A} (v : list A) shifts :
  length (Torch.roll v shifts) = length v.
Proof. apply Permutation_length, roll_perm. Qed.

Lemma count_nan_perm v w : Permutation v w -> count_nan v = count_nan w.
Proof.
  intros H. unfold count_nan. apply Permutation_length.
  induction H; simpl.
  - reflexivity.
  - destruct (isnan x); [now constructor|assumption].
  - destruct (isnan x), (isnan y); try reflexivity. apply perm_swap.
  - etransitivity; eassumption.
Qed.

Lemma survivors_and_nan c rs :
  (length (filter (not_nan_at c) rs) + count_nan (read_column c rs)
   = length rs)%nat.
Proof.
  unfold count_nan, not_nan_at, read_column.
  induction rs as [|r rs IH]; simpl; [reflexivity|].
  destruct (isnan (nth c r NaN)); simpl; lia.
Qed.

Lemma count_nan_masked mask x :
  all_num x -> length mask = length x ->
  count_nan (Torch.where_ (map negb mask) x (Torch.full_like x NaN))
  = count_true mask.
Proof.
  unfold count_nan, count_true, Torch.full_like.
  intros Hx. revert mask. induction Hx as [|a x Ha _ IH]; intros [|b mask] Hl;
    simpl in *; try discriminate; [reflexivity|].
  injection Hl as Hl. specialize (IH mask Hl).
  destruct b; simpl; [lia|]. rewrite Ha. exact IH.
Qed.

Lemma count_true_isin zs ks :
  count_true (Torch.isin (map Num zs) (map Num ks))
  = length (filter (fun z => memb z ks) zs).
Proof.
  unfold count_true, Torch.isin, memb. rewrite map_map.
  induction zs as [|z zs IH]; simpl; [reflexivity|].
  assert (E : existsb (scalar_eqb (Num z)) (map Num ks)
              = existsb (Z.eqb z) ks).
  { clear. induction ks as [|k ks IH]; simpl; [reflexivity|now rewrite IH]. }
  rewrite E. destruct (existsb (Z.eqb z) ks); simpl; now rewrite IH.
Qed.

Lemma memb_in z ks : memb z ks = true <-> In z ks.
Proof.
  unfold memb. rewrite existsb_exists. split.
  - intros (x & Hx & He). apply Z.eqb_eq in He. now subst.
  - intros H. exists z. split; [exact H|apply Z.eqb_refl].
Qed.

(** A duplicate-free list [ks] inside a duplicate-free list [span] is met
    exactly [length ks] times when [span] is traversed. *)
Lemma count_members span ks :
  NoDup span -> NoDup ks -> incl ks span ->
  length (filter (fun z => memb z ks) span) = length ks.
Proof.
  intros Hs Hk Hi. apply Permutation_length, NoDup_Permutation.
  - now apply NoDup_filter.
  - exact Hk.
  - intros x. rewrite filter_In, memb_in. split; [tauto|].
    intros H. split; [now apply Hi|exact H].
Qed.

Lemma filter_length_perm {A} (f : A -> bool) l l' :
  Permutation l l' -> length (filter f l) = length (filter f l').
Proof.
  intros H. apply Permutation_length.
  induction H; simpl.
  - reflexivity.
  - destruct (f x); [now constructor|assumption].
  - destruct (f x), (f y); try reflexivity. apply perm_swap.
  - etransitivity; eassumption.
Qed.

Lemma count_in_group times groups ks g :
  length (filter (fun p => memb (fst p) ks && (snd p =? g))
            (combine times groups))
  = length (filter (fun z => memb z ks) (times_of_group times groups g)).
Proof.
  unfold times_of_group.
  induction (combine times groups) as [|p l IH]; simpl; [reflexivity|].
  destruct (snd p =? g); simpl.
  - destruct (memb (fst p) ks); simpl; now rewrite IH.
  - rewrite andb_false_r. exact IH.
Qed.

(** Rows are counted group by group. *)
Lemma count_by_group (P : Z * Z -> bool) (l : list (Z * Z)) k gs :
  NoDup gs ->
  (forall g, In g gs ->
     length (filter (fun p => P p && (snd p =? g)) l) = k) ->
  length (filter (fun p => P p && memb (snd p) gs) l) = (length gs * k)%nat.
Proof.
  induction 1 as [|g gs Hnotin Hd IH]; intros Hk.
  - clear Hk. simpl. induction l as [|p l IHl]; simpl; [reflexivity|].
    unfold memb. simpl. rewrite andb_false_r. exact IHl.
  - simpl length. rewrite Nat.mul_succ_l.
    rewrite <- IH by (intros; apply Hk; now right).
    rewrite <- (Hk g) by now left.
    clear IH Hk. induction l as [|p l IHl]; simpl; [reflexivity|].
    unfold memb at 1. simpl existsb. fold (memb (snd p) gs).
    destruct (Z.eqb_spec (snd p) g) as [E|E].
    + assert (memb (snd p) gs = false) as ->.
      { destruct (memb (snd p) gs) eqn:M; [|reflexivity].
        apply memb_in in M. congruence. }
      rewrite andb_true_r, andb_false_r. simpl.
      destruct (P p); simpl; lia.
    + rewrite andb_false_r. simpl.
      destruct (P p && memb (snd p) gs); simpl; lia.
Qed.

Lemma filter_ext_in_length {A} (f g : A -> bool) l :
  (forall x, In x l -> f x = g x) ->
  length (filter f l) = length (filter g l).
Proof.
  intros H. f_equal. now apply filter_ext_in.
Qed.

Lemma unique_values zs :
  exists gs,
    Torch.unique (map Num zs) = map Num gs
    /\ NoDup gs
    /\ forall z, In z gs <-> In z zs.
Proof.
  pose proof (all_num_map_num zs) as Hn.
  assert (Hns : all_num (Torch.sort (map Num zs)))
    by (eapply all_num_perm; [symmetry; apply sort_perm|exact Hn]).
  assert (Hu : StronglySorted slt (Torch.unique (map Num zs)))
    by (apply dedup_strict; [exact Hns|apply sort_sorted]).
  assert (Hnu : all_num (Torch.unique (map Num zs))).
  { unfold all_num in *. rewrite Forall_forall in *.
    intros x Hx. apply Hns. now apply dedup_incl. }
  exists (map val (Torch.unique (map Num zs))).
  split; [now apply num_of_val|]. split.
  - apply strict_nodup_Z. now apply strict_vals.
  - intros z. rewrite <- in_map_num, <- num_of_val by exact Hnu.
    rewrite <- (in_map_num z zs). split; intros H.
    + apply dedup_incl in H.
      eapply Permutation_in; [apply sort_perm|exact H].
    + apply dedup_complete; [exact Hns|].
      eapply Permutation_in; [symmetry; apply sort_perm|exact H].
Qed.

Lemma in_combine_left {A B} (l : list A) (l' : list B) x :
  length l = length l' -> In x l -> exists y, In (x, y) (combine l l').
Proof.
  revert l'. induction l as [|a l IH]; intros [|b l'] Hl Hin; simpl in *;
    try discriminate; [contradiction|].
  destruct Hin as [->|Hin]; [eauto|].
  destruct (IH l' ltac:(lia) Hin) as [y Hy]. eauto.
Qed.

Lemma in_times_of_group times groups z g :
  In (z, g) (combine times groups) -> In z (times_of_group times groups g).
Proof.
  intros H. unfold times_of_group.
  apply (in_map fst _ (z, g)). apply filter_In. split; [exact H|].
  simpl. apply Z.eqb_refl.
Qed.

Lemma times_of_group_incl times groups g z :
  In z (times_of_group times groups g) -> In z times.
Proof.
  unfold times_of_group. rewrite in_map_iff.
  intros ([z' g'] & <- & H). apply filter_In in H. destruct H as [H _].
  simpl. eapply in_combine_l. exact H.
Qed.

Lemma filter_fst_combine (f : Z -> bool) times groups :
  length times = length groups ->
  length (filter (fun p : Z * Z => f (fst p)) (combine times groups))
  = length (filter f times).
Proof.
  revert groups. induction times as [|z zs IH]; intros [|g gs] Hl;
    simpl in *; try discriminate; [reflexivity|].
  destruct (f z); simpl; rewrite IH by lia; reflexivity.
Qed.

Lemma in_firstn {A} k (l : list A) x : In x (firstn k l) -> In x l.
Proof.
  intros H. rewrite <- (firstn_skipn k l). apply in_or_app. now left.
Qed.

(** Under the uniform grid, the rows whose time index is among the first
    [k] distinct time values number [k] per group. *)
Lemma marked_rows_per_group times groups span gs ds k :
  length times = length groups ->
  uniform_grid times groups span ->
  NoDup gs -> (forall g, In g gs <-> In g groups) ->
  NoDup ds -> (forall z, In z ds <-> In z times) ->
  (k <= length span)%nat ->
  length (filter (fun z => memb z (firstn k ds)) times)
  = (length gs * k)%nat.
Proof.
  intros Hl [Hspan Hgrid] Hgs Hgin Hds Hdin Hk.
  set (ks := firstn k ds).
  assert (Hks : NoDup ks).
  { unfold ks. rewrite <- (firstn_skipn k ds) in Hds.
    now apply NoDup_app_remove_r in Hds. }
  assert (Hincl : incl ks span).
  { intros z Hz. apply in_firstn in Hz. apply Hdin in Hz.
    destruct (in_combine_left times groups z Hl Hz) as [g Hg].
    eapply Permutation_in; [apply (Hgrid g)|].
    - eapply in_combine_r. exact Hg.
    - now apply in_times_of_group. }
  rewrite <- (filter_fst_combine (fun z => memb z ks) times groups Hl).
  rewrite (filter_ext_in_length _
             (fun p => memb (fst p) ks && memb (snd p) gs)).
  2:{ intros [z g] Hin. simpl.
      assert (memb g gs = true) as ->; [|now rewrite andb_true_r].
      apply memb_in, Hgin. eapply in_combine_r. exact Hin. }
  rewrite (count_by_group (fun p => memb (fst p) ks) _ (length ks))
    by (try exact Hgs; intros g Hg; rewrite count_in_group;
        rewrite (filter_length_perm _ _ span)
          by (apply Hgrid; now apply Hgin);
        now apply count_members).
  destruct gs as [|g gs']; [reflexivity|].
  f_equal. unfold ks. apply firstn_length_le.
  etransitivity; [exact Hk|].
  apply NoDup_incl_length; [exact Hspan|].
  intros z Hz. apply Hdin.
  eapply times_of_group_incl.
  eapply Permutation_in; [symmetry; apply (Hgrid g)|exact Hz].
  apply Hgin. now left.
Qed.

Lemma mask_length time_column steps :
  length (time_values_mask time_column steps) = length time_column.
Proof. unfold time_values_mask, Torch.isin. apply length_map. Qed.

Lemma shifted_length mask src steps :
  length mask = length src ->
  length (masked_column_shifted mask src steps) = length src.
Proof.
  intros H. unfold masked_column_shifted. rewrite roll_length.
  apply where_length; [now rewrite length_map|apply full_like_length].
Qed.

Lemma count_nan_shifted mask src steps :
  all_num src -> length mask = length src ->
  count_nan (masked_column_shifted mask src steps) = count_true mask.
Proof.
  intros Hn Hl. unfold masked_column_shifted.
  rewrite (count_nan_perm _ _ (roll_perm _ _)).
  now apply count_nan_masked.
Qed.

Lemma well_formed_index t j c :
  well_formed t -> Py.index (ncols t) j = Some c ->
  Forall (fun r => (c < length r)%nat) (rows t).
Proof.
  intros Hwf Hc. apply index_some_lt in Hc.
  eapply Forall_impl; [|exact Hwf]. simpl. intros r ->. exact Hc.
Qed.

(** What the filtered call removes: as many rows as the shifted column
    holds NaN. *)
Lemma removed_rows cuda t steps force_cpu retain time_column target :
  cuda || force_cpu = true ->
  well_formed t ->
  column t 1 = Some time_column ->
  column t (-1) = Some target ->
  exists out,
    snd (call cuda t (-1) 1 steps force_cpu false retain) = Ok out
    /\ (nrows out
        + count_nan (masked_column_shifted
                       (time_values_mask time_column steps) target steps)
        = nrows t)%nat.
Proof.
  intros Hp Hwf Ht Hs.
  assert (Hlen : length (masked_column_shifted
                           (time_values_mask time_column steps) target steps)
                 = length (rows t)).
  { rewrite shifted_length.
    - apply (column_length _ _ _ Hs).
    - rewrite mask_length, (column_length _ _ _ Ht).
      symmetry. apply (column_length _ _ _ Hs). }
  destruct retain.
  - destruct (call_append cuda t (-1) 1 steps force_cpu false
                time_column target (ncols t) Hp Ht Hs)
      as (out & Hcall & _ & Hr); [right; apply index_last|].
    exists out. rewrite Hcall. split; [reflexivity|].
    unfold nrows. rewrite Hr.
    rewrite <- (read_append_column_new (ncols t) _ (rows t) Hlen Hwf) at 2.
    rewrite survivors_and_nan. now apply append_column_length.
  - pose proof Hs as Hs'. unfold column in Hs'.
    destruct (Py.index (ncols t) (-1)) as [c|] eqn:Hc; [|discriminate].
    destruct (call_overwrite cuda t (-1) 1 steps force_cpu false
                time_column target c Hp Ht Hs Hc)
      as (out & Hcall & _ & Hr).
    exists out. rewrite Hcall. split; [reflexivity|].
    unfold nrows. rewrite Hr.
    rewrite <- (read_write_column c _ (rows t) Hlen
                  (well_formed_index _ _ _ Hwf Hc)) at 2.
    rewrite survivors_and_nan. apply write_column_length.
Qed.

(** X2. The row-count law for a non-negative step count: on a table whose
    groups all span the same time indices, each once, and whose target holds
    no NaN, the filtered call removes [G * steps] rows, [G] the number of
    distinct groups, and the notebook's oracle accepts the result. *)
Theorem row_count_law cuda t steps force_cpu retain times groups target span :
  cuda || force_cpu = true ->
  well_formed t ->
  column t 1 = Some (map Num times) ->
  column t 2 = Some (map Num groups) ->
  column t (-1) = Some target ->
  all_num target ->
  uniform_grid times groups span ->
  0 <= steps <= Z.of_nat (length span) ->
  exists out,
    snd (call cuda t (-1) 1 steps force_cpu false retain) = Ok out
    /\ Z.of_nat (nrows t) - Z.of_nat (nrows out)
       = Z.of_nat (length (Torch.unique (map Num groups))) * steps
    /\ check_if_length_correct t out steps = Ok true.
Proof.
  intros Hp Hwf Ht Hg Hs Hn Hgrid Hsteps.
  destruct (removed_rows cuda t steps force_cpu retain _ _ Hp Hwf Ht Hs)
    as (out & Hcall & Hcount).
  exists out. split; [exact Hcall|].
  assert (Hlt : length times = length groups).
  { apply column_length in Ht, Hg. rewrite length_map in Ht, Hg. congruence. }
  rewrite count_nan_shifted in Hcount; [|exact Hn|].
  2:{ rewrite mask_length. apply column_length in Ht, Hs. congruence. }
  destruct (sorted_unique_values times) as (ds & Hd & Hsd & Hdin).
  destruct (unique_values groups) as (gs & Hu & Hgs & Hgin).
  unfold time_values_mask in Hcount.
  rewrite Hd, slice_to_nonneg, firstn_map, count_true_isin in Hcount by lia.
  rewrite (marked_rows_per_group times groups span gs ds) in Hcount;
    auto using strict_nodup_Z; try lia.
  assert (Hlaw : Z.of_nat (nrows t) - Z.of_nat (nrows out)
                 = Z.of_nat (length (Torch.unique (map Num groups))) * steps).
  { rewrite Hu, length_map. nia. }
  split; [exact Hlaw|].
  unfold check_if_length_correct. rewrite Hg, Hlaw, Z.abs_eq by lia.
  now rewrite Z.eqb_refl.
Qed.

Lemma row_count_law_two_groups :
  exists out,
    snd (call false two_groups (-1) 1 2 true false false) = Ok out
    /\ Z.of_nat (nrows two_groups) - Z.of_nat (nrows out)
       = Z.of_nat (length (Torch.unique (map Num [0; 0; 0; 1; 1; 1]))) * 2
    /\ check_if_length_correct two_groups out 2 = Ok true.
Proof.
  apply (row_count_law false two_groups 2 true false
           [0; 1; 2; 0; 1; 2] [0; 0; 0; 1; 1; 1]
           [Num 10; Num 20; Num 30; Num 40; Num 50; Num 60] [0; 1; 2]).
  - reflexivity.
  - unfold well_formed; simpl. repeat constructor.
  - reflexivity.
  - reflexivity.
  - reflexivity.
  - repeat constructor.
  - split.
    + repeat constructor; simpl; intuition lia.
    + intros g [<-|[<-|[<-|[<-|[<-|[<-|[]]]]]]]; reflexivity.
  - simpl. lia.
Defined.

(** ** Placement *)

(** Once the working table is placed, the elements of the result do not
    depend on where it was placed. *)
Lemma placed_results_agree cuda t cidx tidx steps force_cpu return_full retain :
  cuda || force_cpu = true ->
  elements (snd (call cuda t cidx tidx steps force_cpu return_full retain))
  = elements (snd (call true t cidx tidx steps true return_full retain)).
Proof.
  intros Hp. destruct t as [d n rs].
  destruct cuda, force_cpu, d, retain, return_full; try discriminate;
    try reflexivity.
  all: repeat (run;
         match goal with
         | |- context [match Py.index ?m ?j with _ => _ end] =>
             destruct (Py.index m j)
         end).
  all: try reflexivity.
Qed.

(** X7. With an accelerator available, forcing the CPU or not gives the same
    elements, or the same exception. *)
Lemma force_cpu_is_irrelevant_with_cuda t cidx tidx steps return_full retain :
  elements (snd (call true t cidx tidx steps true return_full retain))
  = elements (snd (call true t cidx tidx steps false return_full retain)).
Proof.
  symmetry. now apply placed_results_agree.
Qed.

(** ** What the call leaves alone *)

Lemma call_append_bad_index cuda t cidx tidx steps force_cpu :
  cuda || force_cpu = true ->
  column t tidx <> None ->
  column t (- tidx) <> None ->
  Py.index (S (ncols t)) cidx = None ->
  call cuda t cidx tidx steps force_cpu false true = (t, Raise IndexError).
Proof.
  intros Hp Ht Hs Hc. destruct t as [d n rs].
  unfold column in Ht, Hs. cbn [ncols rows dev] in *.
  destruct (Py.index n tidx) eqn:Et; [|congruence].
  destruct (Py.index n (- tidx)) eqn:Es; [|congruence].
  destruct cuda, force_cpu, d; try discriminate.
  all: repeat (progress (run; rewrite ?Et, ?Es, ?Hc)); reflexivity.
Qed.

(** X8. The caller's table is written only through an alias, and only when the
    target is overwritten. *)
Lemma caller_table_after cuda t cidx tidx steps force_cpu return_full retain :
  aliases cuda force_cpu t = false \/ retain = true ->
  fst (call cuda t cidx tidx steps force_cpu return_full retain) = t.
Proof.
  intros H. destruct t as [d n rs]. unfold aliases in H. cbn [dev] in H.
  destruct cuda, force_cpu, d, retain, return_full;
    try (destruct H; discriminate); try reflexivity.
  all: repeat (run;
         match goal with
         | |- context [match Py.index ?m ?j with _ => _ end] =>
             destruct (Py.index m j)
         end).
  all: try reflexivity.
Qed.

Lemma read_column_filter c (f : list scalar -> bool) rs :
  read_column c (filter f rs) = Torch.mask_select (map f rs) (read_column c rs).
Proof.
  induction rs as [|r rs IH]; simpl; [reflexivity|].
  destruct (f r); simpl; now rewrite IH.
Qed.

Lemma mask_select_all {A} (v : list A) :
  Torch.mask_select (repeat true (length v)) v = v.
Proof. induction v as [|a v IH]; simpl; [reflexivity|now rewrite IH]. Qed.

Lemma count_true_filter {A} (f : A -> bool) l :
  count_true (map f l) = length (filter f l).
Proof.
  unfold count_true. induction l as [|a l IH]; simpl; [reflexivity|].
  unfold id at 1. destruct (f a); simpl; now rewrite IH.
Qed.

Lemma count_true_all n : count_true (repeat true n) = n.
Proof.
  unfold count_true. induction n as [|n IH]; simpl; [reflexivity|].
  now rewrite IH.
Qed.

(** X9. The surviving rows are selected by a mask over the input rows, and
    every column other than the written one holds, in the surviving rows,
    the values it held in the input. *)
Lemma other_columns_are_kept cuda t cidx tidx steps force_cpu return_full
    retain out :
  well_formed t ->
  snd (call cuda t cidx tidx steps force_cpu return_full retain) = Ok out ->
  exists keep,
    length keep = nrows t
    /\ nrows out = count_true keep
    /\ forall c', (c' < ncols t)%nat ->
         (retain = false -> Py.index (ncols t) cidx <> Some c') ->
         read_column c' (rows out)
         = Torch.mask_select keep (read_column c' (rows t)).
Proof.
  intros Hwf Hcall.
  destruct (cuda || force_cpu) eqn:Hp.
  2:{ apply orb_false_iff in Hp. destruct Hp as [-> ->].
      rewrite call_unbound in Hcall. discriminate. }
  destruct (column t tidx) as [tc|] eqn:Ht.
  2:{ rewrite call_bad_time_column in Hcall by auto. discriminate. }
  destruct (column t (- tidx)) as [sc|] eqn:Hs.
  2:{ rewrite call_bad_time_column in Hcall by auto. discriminate. }
  assert (Hlen : length (masked_column_shifted (time_values_mask tc steps)
                           sc steps) = length (rows t)).
  { rewrite shifted_length.
    - apply (column_length _ _ _ Hs).
    - rewrite mask_length, (column_length _ _ _ Ht).
      symmetry. apply (column_length _ _ _ Hs). }
  destruct retain.
  - assert (Hc : exists c, return_full = true
                           \/ Py.index (S (ncols t)) cidx = Some c).
    { destruct return_full; [exists O; now left|].
      destruct (Py.index (S (ncols t)) cidx) as [c|] eqn:Hc; [eauto|].
      rewrite call_append_bad_index in Hcall by congruence. discriminate. }
    destruct Hc as [c Hc].
    destruct (call_append cuda t cidx tidx steps force_cpu return_full
                tc sc c Hp Ht Hs Hc) as (out' & Hcall' & _ & Hr).
    rewrite Hcall' in Hcall. injection Hcall as <-.
    set (stacked := append_column _ _) in Hr.
    assert (Hst : length stacked = length (rows t))
      by now apply append_column_length.
    assert (Hold : forall c', (c' < ncols t)%nat ->
              read_column c' stacked = read_column c' (rows t))
      by (intros; now apply (read_append_column_old _ (ncols t))).
    destruct return_full.
    + exists (repeat true (nrows t)). unfold nrows.
      rewrite repeat_length, count_true_all, Hr.
      repeat split; [exact Hst|]. intros c' Hc' _.
      rewrite Hold by exact Hc'.
      now rewrite <- (read_column_length c'), mask_select_all.
    + exists (map (not_nan_at c) stacked). unfold nrows.
      rewrite length_map, count_true_filter, Hr.
      repeat split; [exact Hst|]. intros c' Hc' _.
      now rewrite read_column_filter, Hold.
  - destruct (Py.index (ncols t) cidx) as [c|] eqn:Hc.
    2:{ rewrite call_bad_target_column in Hcall by congruence.
        discriminate. }
    destruct (call_overwrite cuda t cidx tidx steps force_cpu return_full
                tc sc c Hp Ht Hs Hc) as (out' & Hcall' & _ & Hr).
    rewrite Hcall' in Hcall. injection Hcall as <-.
    set (written := write_column _ _ _) in Hr.
    assert (Hw : length written = length (rows t))
      by apply write_column_length.
    assert (Hold : forall c', c <> c' ->
              read_column c' written = read_column c' (rows t))
      by (intros; now apply read_write_column_other).
    destruct return_full.
    + exists (repeat true (nrows t)). unfold nrows.
      rewrite repeat_length, count_true_all, Hr.
      repeat split; [exact Hw|]. intros c' _ Hc'.
      rewrite Hold by (specialize (Hc' eq_refl); congruence).
      now rewrite <- (read_column_length c'), mask_select_all.
    + exists (map (not_nan_at c) written). unfold nrows.
      rewrite length_map, count_true_filter, Hr.
      repeat split; [exact Hw|]. intros c' _ Hc'.
      rewrite read_column_filter, Hold
        by (specialize (Hc' eq_refl); congruence).
      reflexivity.
Qed.

(** ** Which row each row reads *)

Section Positions.

Local Open Scope nat_scope.

Lemma tile_length {A} (v : list A) n : length (tile v n) = n * length v.
Proof.
  unfold tile. induction n as [|n IH]; simpl; [reflexivity|].
  now rewrite length_app, IH.
Qed.

Lemma nth_tile {A} (v : list A) n i d :
  i < n * length v -> nth i (tile v n) d = nth (i mod length v) v d.
Proof.
  unfold tile. revert i. induction n as [|n IH]; intros i Hi; simpl in *;
    [lia|].
  destruct (Nat.lt_ge_cases i (length v)) as [Hlt|Hge].
  - rewrite app_nth1 by exact Hlt. now rewrite Nat.mod_small.
  - rewrite app_nth2 by exact Hge. rewrite IH by lia. f_equal.
    replace i with ((i - length v) + 1 * length v) at 2 by lia.
    now rewrite Nat.Div0.mod_add.
Qed.

Lemma in_tile {A} (v : list A) n x : 0 < n -> In x (tile v n) <-> In x v.
Proof.
  unfold tile. intros Hn. induction n as [|n IH]; [lia|]. simpl.
  rewrite in_app_iff. destruct n as [|n]; simpl in *; [tauto|].
  rewrite IH by lia. tauto.
Qed.

Lemma filter_below_nth span p :
  StronglySorted Z.lt span -> p < length span ->
  length (filter (fun u => Z.ltb u (nth p span 0%Z)) span) = p.
Proof.
  intros Hs. revert p. induction Hs as [|a l Hs IH Ha]; intros p Hp;
    simpl in *; [lia|].
  destruct p as [|p].
  - rewrite Z.ltb_irrefl. now rewrite filter_below_least.
  - assert (Hlt : (a < nth p l 0)%Z).
    { rewrite Forall_forall in Ha. apply Ha, nth_In. lia. }
    apply Z.ltb_lt in Hlt. rewrite Hlt. simpl. f_equal. apply IH. lia.
Qed.

(** In a table of [n] groups spanning [span], the boundary mask marks the
    rows at the first [k] positions of every group. *)
Lemma mask_tile span n k j :
  StronglySorted Z.lt span -> j < n * length span ->
  nth j (time_values_mask (map Num (tile span n)) (Z.of_nat k)) false
  = (j mod length span <? k).
Proof.
  intros Hs Hj.
  assert (Hn : 0 < n) by lia.
  assert (Hj' : j < length (tile span n)) by now rewrite tile_length.
  destruct (mask_nth (tile span n) (Z.of_nat k) j (Nat2Z.is_nonneg k) Hj')
    as (ds & Hsd & Hin & Hmask).
  rewrite Nat2Z.id in Hmask.
  assert (Hp : j mod length span < length span)
    by (apply Nat.mod_upper_bound; lia).
  rewrite nth_tile in Hmask by exact Hj.
  rewrite (in_firstn_sorted _ _ _ Hsd) in Hmask
    by (apply Hin, in_tile; [exact Hn|now apply nth_In]).
  rewrite (distinct_below_sorted ds (tile span n)) in Hmask
    by auto using strict_nodup_Z.
  rewrite <- (distinct_below_sorted span (tile span n)) in Hmask
    by (try (now apply strict_nodup_Z); intros x; symmetry;
        now apply in_tile).
  rewrite filter_below_nth in Hmask by assumption.
  destruct (Nat.ltb_spec (j mod length span) k) as [H|H].
  - now apply Hmask.
  - destruct (nth j _ false); [|reflexivity].
    assert (j mod length span < k) by now apply Hmask. lia.
Qed.

Lemma nth_where mask x i :
  length mask = length x -> i < length x ->
  nth i (Torch.where_ (map negb mask) x (Torch.full_like x NaN)) NaN
  = if nth i mask false then NaN else nth i x NaN.
Proof.
  unfold Torch.full_like. revert mask i.
  induction x as [|a x IH]; intros [|b mask] i Hl Hi; simpl in *;
    try discriminate; try lia.
  destruct i as [|i]; [now destruct b|]. apply IH; lia.
Qed.

(** Rolling by [-k] brings to position [i] the cell of position
    [(i + k) mod n]. *)
Lemma nth_roll_up {A} (v : list A) k i d :
  k <= length v -> i < length v ->
  nth i (Torch.roll v (- Z.of_nat k)) d = nth ((i + k) mod length v) v d.
Proof.
  intros Hk Hi. unfold Torch.roll.
  rewrite Z.opp_involutive, <- Nat2Z.inj_mod, Nat2Z.id.
  destruct (Nat.eq_dec k (length v)) as [->|Hne].
  - rewrite Nat.Div0.mod_same. simpl. rewrite app_nil_r. f_equal.
    replace (i + length v) with (i + 1 * length v) by lia.
    rewrite Nat.Div0.mod_add. now rewrite Nat.mod_small.
  - rewrite (Nat.mod_small k) by lia.
    destruct (Nat.lt_ge_cases i (length v - k)) as [Hlt|Hge].
    + rewrite app_nth1 by (rewrite length_skipn; lia).
      rewrite nth_skipn. f_equal. rewrite Nat.mod_small; lia.
    + rewrite app_nth2 by (rewrite length_skipn; lia).
      rewrite length_skipn, nth_firstn.
      destruct (Nat.ltb_spec (i - (length v - k)) k); [|lia].
      f_equal. apply (Nat.mod_unique _ _ 1); lia.
Qed.

End Positions.

Section Direction.

Local Open Scope nat_scope.

(** Position [(i + k) mod (n * len)] seen from inside its group. *)
Lemma rolled_position n len k i :
  k <= len -> i < n * len ->
  let j := (i + k) mod (n * len) in
  if i mod len + k <? len
  then j = i + k /\ k <= j mod len
  else j mod len < k.
Proof.
  intros Hk Hi j.
  assert (Hlen : 0 < len) by nia.
  pose proof (Nat.div_mod_eq i len) as Hdm.
  pose proof (Nat.mod_upper_bound i len ltac:(lia)) as Hp.
  set (p := i mod len) in *. set (g := i / len) in *.
  assert (Hg : g < n) by nia.
  destruct (Nat.ltb_spec (p + k) len) as [Hlt|Hge].
  - assert (Hj : j = i + k).
    { unfold j. apply Nat.mod_small. nia. }
    split; [exact Hj|]. rewrite Hj.
    rewrite <- (Nat.mod_unique (i + k) len g (p + k)); lia.
  - destruct (Nat.eq_dec (S g) n) as [He|Hne].
    + assert (Hj : j = p + k - len).
      { unfold j. symmetry. apply (Nat.mod_unique _ _ 1); nia. }
      rewrite Hj, Nat.mod_small; lia.
    + assert (Hj : j = i + k).
      { unfold j. apply Nat.mod_small. nia. }
      rewrite Hj.
      rewrite <- (Nat.mod_unique (i + k) len (S g) (p + k - len)); lia.
Qed.

(** The shifted column, position by position: in a table of [n] groups
    that each span [span], sorted by group then time, the row at position
    [p] of its group receives the source value of position [p + k] of the
    same group, and the last [k] rows of every group receive NaN. *)
Lemma shifted_at span n k target i :
  StronglySorted Z.lt span -> k <= length span ->
  length target = n * length span -> i < length target ->
  nth i (masked_column_shifted
           (time_values_mask (map Num (tile span n)) (Z.of_nat k))
           target (Z.of_nat k)) NaN
  = if i mod length span + k <? length span
    then nth (i + k) target NaN else NaN.
Proof.
  intros Hs Hk Hl Hi. unfold masked_column_shifted.
  set (mask := time_values_mask _ _).
  assert (Hml : length mask = length target).
  { unfold mask. now rewrite mask_length, length_map, tile_length. }
  assert (Hwl : length (Torch.where_ (map negb mask) target
                          (Torch.full_like target NaN)) = length target).
  { apply where_length; [now rewrite length_map|apply full_like_length]. }
  assert (Hn : k <= length target).
  { rewrite Hl in Hi |- *. destruct n; simpl in *; lia. }
  rewrite nth_roll_up by (rewrite Hwl; assumption).
  rewrite Hwl.
  assert (Hj : (i + k) mod length target < length target)
    by (apply Nat.mod_upper_bound; lia).
  rewrite nth_where by assumption.
  unfold mask. rewrite mask_tile by (try assumption; now rewrite <- Hl).
  pose proof (rolled_position n (length span) k i Hk) as Hpos.
  rewrite <- Hl in Hpos. specialize (Hpos Hi). simpl in Hpos.
  destruct (i mod length span + k <? length span).
  - destruct Hpos as [Hij Hge]. rewrite Hij in *.
    destruct (Nat.ltb_spec ((i + k) mod length span) k); [lia|reflexivity].
  - destruct (Nat.ltb_spec (((i + k) mod length target) mod length span) k);
      [reflexivity|lia].
Qed.

End Direction.

(** X1. The direction of the shift.  On every table of [n] groups that each
    span the strictly increasing time indices [span], sorted by group then
    time, and for every [k <= length span], the unfiltered call with the
    default columns writes into the target of each row the source value
    found [k] periods later in the same group, and NaN into the last [k]
    rows of each group. *)
Theorem rows_receive_later_values cuda t force_cpu span n k target :
  cuda || force_cpu = true ->
  well_formed t ->
  StronglySorted Z.lt span ->
  column t 1 = Some (map Num (tile span n)) ->
  column t (-1) = Some target ->
  (k <= length span)%nat ->
  exists out shifted,
    snd (call cuda t (-1) 1 (Z.of_nat k) force_cpu true false) = Ok out
    /\ column out (-1) = Some shifted
    /\ length shifted = length target
    /\ forall i, (i < length target)%nat ->
         nth i shifted NaN
         = if (i mod length span + k <? length span)%nat
           then nth (i + k) target NaN else NaN.
Proof.
  intros Hp Hwf Hs Ht Hsrc Hk.
  pose proof Hsrc as Hs'. unfold column in Hs'.
  destruct (Py.index (ncols t) (-1)) as [c|] eqn:Hc; [|discriminate].
  destruct (call_overwrite cuda t (-1) 1 (Z.of_nat k) force_cpu true
              _ _ c Hp Ht Hsrc Hc) as (out & Hcall & Hn & Hr).
  assert (Hl : length target = (n * length span)%nat).
  { apply column_length in Ht, Hsrc.
    rewrite length_map, tile_length in Ht. congruence. }
  assert (Hlen : length (masked_column_shifted
                   (time_values_mask (map Num (tile span n)) (Z.of_nat k))
                   target (Z.of_nat k)) = length target).
  { apply shifted_length.
    now rewrite mask_length, length_map, tile_length. }
  exists out, (masked_column_shifted
                 (time_values_mask (map Num (tile span n)) (Z.of_nat k))
                 target (Z.of_nat k)).
  rewrite Hcall. split; [reflexivity|]. split; [|split].
  - unfold column. rewrite Hn, Hc, Hr. f_equal.
    apply read_write_column.
    + rewrite Hlen. apply (column_length _ _ _ Hsrc).
    + now apply (well_formed_index t (-1)).
  - exact Hlen.
  - intros i Hi. now apply shifted_at.
Qed.

Lemma rows_receive_later_values_one_group :
  exists out shifted,
    snd (call false one_group (-1) 1 (Z.of_nat 1) true true false) = Ok out
    /\ column out (-1) = Some shifted
    /\ length shifted = length [Num 10; Num 20; Num 30; Num 40]
    /\ forall i, (i < length [Num 10; Num 20; Num 30; Num 40])%nat ->
         nth i shifted NaN
         = if (i mod length [0; 1; 2; 3] + 1 <? length [0; 1; 2; 3])%nat
           then nth (i + 1) [Num 10; Num 20; Num 30; Num 40] NaN else NaN.
Proof.
  apply (rows_receive_later_values false one_group true [0; 1; 2; 3] 1 1
           [Num 10; Num 20; Num 30; Num 40]).
  - reflexivity.
  - unfold well_formed; simpl. repeat constructor.
  - repeat constructor.
  - reflexivity.
  - reflexivity.
  - simpl. lia.
Defined.

(** * The utilities *)

Example generated_two_by_three :
  generate_synthetic_temporal_dataset sample_features sample_targets 2 3 1
  = mkTensor CPU 5
      [ [Num 0; Num 0; Num 0; Num 0; Num 10];
        [Num 1; Num 1; Num 0; Num 7; Num 20];
        [Num 2; Num 2; Num 0; Num 14; Num 30];
        [Num 3; Num 0; Num 1; Num 21; Num 40];
        [Num 4; Num 1; Num 1; Num 28; Num 50];
        [Num 5; Num 2; Num 1; Num 35; Num 60] ].
Proof. reflexivity. Qed.

Example sort_after_shuffle :
  sort_tensor_by_indices
    (shuffle_tensor_rows [4; 0; 5; 2; 1; 3]%nat two_groups) 2 1
  = inl two_groups.
Proof. reflexivity. Qed.

(** ** Sorting positions *)

Section Argsort.

Variable leb : nat -> nat -> bool.

Let R (i j : nat) : Prop := leb i j = true.

Lemma insert_by_perm i l : Permutation (Np.insert_by leb i l) (i :: l).
Proof.
  induction l as [|j l IH]; simpl; [reflexivity|].
  destruct (leb i j); [reflexivity|].
  rewrite IH. apply perm_swap.
Qed.

Lemma isort_perm l : Permutation (Np.isort leb l) l.
Proof.
  induction l as [|i l IH]; simpl; [reflexivity|].
  rewrite insert_by_perm. now constructor.
Qed.

(** A sorted list of positions is left as it is. *)
Lemma isort_sorted_id l : StronglySorted R l -> Np.isort leb l = l.
Proof.
  induction 1 as [|i l Hs IH Hi]; simpl; [reflexivity|].
  rewrite IH. destruct l as [|j l']; [reflexivity|]. simpl.
  inversion Hi as [|? ? Hij _]; subst. unfold R in Hij. now rewrite Hij.
Qed.

Hypothesis leb_total : forall i j, leb i j = false -> leb j i = true.
Hypothesis leb_trans :
  forall i j k, leb i j = true -> leb j k = true -> leb i k = true.

Lemma insert_by_sorted i l :
  StronglySorted R l -> StronglySorted R (Np.insert_by leb i l).
Proof.
  induction 1 as [|j l Hs IH Hj]; simpl.
  - repeat constructor.
  - destruct (leb i j) eqn:E.
    + constructor; [constructor; assumption|].
      constructor; [exact E|].
      eapply Forall_impl; [|exact Hj]. intros k Hk.
      eapply leb_trans; [exact E|exact Hk].
    + constructor; [exact IH|].
      rewrite insert_by_perm. constructor; [|exact Hj].
      now apply leb_total.
Qed.

Lemma isort_sorted l : StronglySorted R (Np.isort leb l).
Proof.
  induction l as [|i l IH]; simpl; [constructor|now apply insert_by_sorted].
Qed.

End Argsort.

(** Case analysis on every integer comparison in sight. *)
Ltac zcmp :=
  repeat match goal with
         | |- context [Z.leb ?x ?y] => destruct (Z.leb_spec x y)
         | H : context [Z.leb ?x ?y] |- _ => destruct (Z.leb_spec x y)
         end;
  simpl in *; try reflexivity; try discriminate; try lia.

Lemma key_leb_total p s r1 r2 :
  key_leb p s r1 r2 = false -> key_leb p s r2 r1 = true.
Proof.
  unfold key_leb, Np.scalar_ltb.
  destruct (nth p r1 NaN), (nth p r2 NaN), (nth s r1 NaN), (nth s r2 NaN);
    simpl; zcmp.
Qed.

Lemma key_leb_trans p s r1 r2 r3 :
  key_leb p s r1 r2 = true -> key_leb p s r2 r3 = true ->
  key_leb p s r1 r3 = true.
Proof.
  unfold key_leb, Np.scalar_ltb.
  destruct (nth p r1 NaN), (nth p r2 NaN), (nth p r3 NaN),
    (nth s r1 NaN), (nth s r2 NaN), (nth s r3 NaN); simpl; zcmp.
Qed.

Lemma nth_nil_nan c : nth c (@nil scalar) NaN = NaN.
Proof. destruct c; reflexivity. Qed.

Lemma nth_read_column c rs i :
  nth i (read_column c rs) NaN = nth c (nth i rs []) NaN.
Proof.
  unfold read_column.
  rewrite <- (nth_nil_nan c) at 1.
  apply (map_nth (fun r => nth c r NaN)).
Qed.

(** The comparison of two positions is the comparison of their rows. *)
Lemma lex_leb_rows p s rs i j :
  Np.lex_leb (read_column s rs) (read_column p rs) i j
  = key_leb p s (nth i rs []) (nth j rs []).
Proof.
  unfold Np.lex_leb, key_leb. now rewrite !nth_read_column.
Qed.

Lemma map_nth_seq {A} (l : list A) d :
  map (fun i => nth i l d) (seq 0 (length l)) = l.
Proof.
  induction l as [|a l IH]; simpl; [reflexivity|].
  f_equal. rewrite <- seq_shift, map_map. exact IH.
Qed.

Lemma map_nth_seq_len {A} (l : list A) d n :
  n = length l -> map (fun i => nth i l d) (seq 0 n) = l.
Proof. intros ->. apply map_nth_seq. Qed.

Lemma sorted_map {A B} (f : A -> B) (R : B -> B -> Prop) l :
  StronglySorted (fun a b => R (f a) (f b)) l <-> StronglySorted R (map f l).
Proof.
  induction l as [|a l IH]; simpl.
  - split; constructor.
  - split; intros H; inversion H; subst; constructor;
      try (now apply IH); rewrite ?Forall_map in *; assumption.
Qed.

(** Two sorted arrangements of the same rows coincide when no two
    different rows tie. *)
Lemma sorted_perm_unique {A} (R : A -> A -> Prop) l1 l2 :
  StronglySorted R l1 -> StronglySorted R l2 -> Permutation l1 l2 ->
  (forall a b, In a l1 -> In b l1 -> R a b -> R b a -> a = b) ->
  (forall a, In a l1 -> R a a) ->
  l1 = l2.
Proof.
  intros H1. revert l2. induction H1 as [|a l1 Hs1 IH Ha]; intros l2 H2 Hp Hanti Hrefl.
  - apply Permutation_nil in Hp. now subst.
  - destruct l2 as [|b l2].
    { symmetry in Hp. apply Permutation_nil in Hp. discriminate. }
    inversion H2 as [|? ? Hs2 Hb]; subst.
    rewrite Forall_forall in Ha, Hb.
    assert (Hba : In b (a :: l1))
      by (eapply Permutation_in; [symmetry; exact Hp|now left]).
    assert (Hab : In a (b :: l2))
      by (eapply Permutation_in; [exact Hp|now left]).
    assert (a = b) as <-.
    { apply Hanti; [now left|exact Hba| |].
      - destruct Hba as [<-|Hba]; [apply Hrefl; now left|now apply Ha].
      - destruct Hab as [->|Hab]; [apply Hrefl; now left|now apply Hb]. }
    f_equal. apply IH.
    + exact Hs2.
    + eapply Permutation_cons_inv. exact Hp.
    + intros x y Hx Hy. apply Hanti; now right.
    + intros x Hx. apply Hrefl. now right.
Qed.

Lemma key_leb_refl p s r : key_leb p s r r = true.
Proof.
  destruct (key_leb p s r r) eqn:E; [reflexivity|].
  pose proof (key_leb_total _ _ _ _ E). congruence.
Qed.

(** ** [sort_tensor_by_indices] and [shuffle_tensor_rows] *)

Lemma index_rows_perm t indices :
  Permutation indices (seq 0 (nrows t)) ->
  Permutation (rows (index_rows t indices)) (rows t).
Proof.
  intros H. unfold index_rows. cbn [rows].
  etransitivity; [apply Permutation_map; exact H|].
  unfold nrows. now rewrite map_nth_seq.
Qed.

Lemma lexsort_perm secondary primary :
  Permutation (Np.lexsort secondary primary) (seq 0 (length primary)).
Proof. apply isort_perm. Qed.

Lemma lexsort_sorted p s rs :
  rows_sorted p s
    (map (fun i => nth i rs [])
       (Np.lexsort (read_column s rs) (read_column p rs))).
Proof.
  unfold rows_sorted. apply sorted_map.
  eapply StronglySorted_ind
    with (P := StronglySorted
                 (fun a b => key_leb p s (nth a rs []) (nth b rs []) = true));
    [constructor| |apply (isort_sorted
                            (Np.lex_leb (read_column s rs) (read_column p rs)))].
  - intros a l _ IH Ha. constructor; [exact IH|].
    eapply Forall_impl; [|exact Ha]. intros b Hb.
    now rewrite <- lex_leb_rows.
  - intros i j. rewrite !lex_leb_rows. apply key_leb_total.
  - intros i j k. rewrite !lex_leb_rows. apply key_leb_trans.
Qed.

Lemma sort_run t p s pc sc :
  dev t = CPU ->
  Py.index (ncols t) p = Some pc ->
  Py.index (ncols t) s = Some sc ->
  sort_tensor_by_indices t p s
  = inl (index_rows t
           (Np.lexsort (read_column sc (rows t)) (read_column pc (rows t)))).
Proof.
  intros Hd Hp Hs. unfold sort_tensor_by_indices, column.
  now rewrite Hs, Hp, Hd.
Qed.

(** X11. The sort returns the rows of the table, all of them, in ascending
    order of the primary column, ties in ascending order of the secondary
    one, on the same device and with the same columns. *)
Theorem sort_returns_the_rows_in_order t p s pc sc :
  dev t = CPU ->
  Py.index (ncols t) p = Some pc ->
  Py.index (ncols t) s = Some sc ->
  exists out,
    sort_tensor_by_indices t p s = inl out
    /\ dev out = dev t /\ ncols out = ncols t
    /\ Permutation (rows out) (rows t)
    /\ rows_sorted pc sc (rows out).
Proof.
  intros Hd Hp Hs. rewrite (sort_run t p s pc sc Hd Hp Hs).
  eexists. split; [reflexivity|]. repeat split.
  - apply index_rows_perm. unfold nrows.
    rewrite <- (read_column_length pc). apply lexsort_perm.
  - apply lexsort_sorted.
Qed.

Lemma sort_returns_the_rows_in_order_witness :
  exists out,
    sort_tensor_by_indices
      (shuffle_tensor_rows [4; 0; 5; 2; 1; 3]%nat two_groups) 2 1 = inl out
    /\ dev out = dev (shuffle_tensor_rows [4; 0; 5; 2; 1; 3]%nat two_groups)
    /\ ncols out
       = ncols (shuffle_tensor_rows [4; 0; 5; 2; 1; 3]%nat two_groups)
    /\ Permutation (rows out)
         (rows (shuffle_tensor_rows [4; 0; 5; 2; 1; 3]%nat two_groups))
    /\ rows_sorted 2 1 (rows out).
Proof.
  apply (sort_returns_the_rows_in_order
           (shuffle_tensor_rows [4; 0; 5; 2; 1; 3]%nat two_groups) 2 1 2 1);
    reflexivity.
Defined.

Lemma sorted_positions p s rs :
  rows_sorted p s rs ->
  StronglySorted
    (fun i j => Np.lex_leb (read_column s rs) (read_column p rs) i j = true)
    (seq 0 (length rs)).
Proof.
  intros H. unfold rows_sorted in H.
  rewrite <- (map_nth_seq rs []) in H at 1.
  apply sorted_map in H.
  eapply StronglySorted_ind
    with (P := StronglySorted
                 (fun i j => Np.lex_leb (read_column s rs) (read_column p rs)
                               i j = true));
    [constructor| |exact H].
  intros a l _ IH Ha. constructor; [exact IH|].
  eapply Forall_impl; [|exact Ha]. intros b Hb. now rewrite lex_leb_rows.
Qed.

Lemma sort_sorted_table_id t p s pc sc :
  dev t = CPU ->
  Py.index (ncols t) p = Some pc ->
  Py.index (ncols t) s = Some sc ->
  rows_sorted pc sc (rows t) ->
  sort_tensor_by_indices t p s = inl t.
Proof.
  intros Hd Hp Hs Hsorted. rewrite (sort_run t p s pc sc Hd Hp Hs).
  unfold Np.lexsort. rewrite read_column_length.
  rewrite isort_sorted_id by now apply sorted_positions.
  unfold index_rows. rewrite map_nth_seq. now destruct t.
Qed.

(** X12. A table that is already in order comes back as it is; in particular
    sorting twice is sorting once. *)
Theorem sort_leaves_a_sorted_table t p s pc sc :
  dev t = CPU ->
  Py.index (ncols t) p = Some pc ->
  Py.index (ncols t) s = Some sc ->
  rows_sorted pc sc (rows t) ->
  sort_tensor_by_indices t p s = inl t.
Proof. apply sort_sorted_table_id. Qed.

Lemma sort_leaves_a_sorted_table_witness :
  sort_tensor_by_indices two_groups 2 1 = inl two_groups.
Proof.
  apply (sort_leaves_a_sorted_table two_groups 2 1 2 1); try reflexivity.
  unfold rows_sorted. simpl.
  repeat (constructor; [|repeat (constructor; try reflexivity)]).
  constructor.
Defined.

(** X14. The shuffle keeps every row, the columns and the device. *)
Theorem shuffle_keeps_the_rows random_indices t :
  Permutation random_indices (seq 0 (nrows t)) ->
  Permutation (rows (shuffle_tensor_rows random_indices t)) (rows t)
  /\ ncols (shuffle_tensor_rows random_indices t) = ncols t
  /\ dev (shuffle_tensor_rows random_indices t) = dev t
  /\ (well_formed t -> well_formed (shuffle_tensor_rows random_indices t)).
Proof.
  intros H. pose proof (index_rows_perm t random_indices H) as Hp.
  repeat split; [exact Hp|].
  unfold well_formed. intros Hwf.
  eapply Permutation_Forall; [symmetry; exact Hp|exact Hwf].
Qed.

Lemma shuffle_keeps_the_rows_witness :
  Permutation (rows (shuffle_tensor_rows [1; 0; 3; 2]%nat one_group))
    (rows one_group)
  /\ ncols (shuffle_tensor_rows [1; 0; 3; 2]%nat one_group) = ncols one_group
  /\ dev (shuffle_tensor_rows [1; 0; 3; 2]%nat one_group) = dev one_group
  /\ (well_formed one_group ->
      well_formed (shuffle_tensor_rows [1; 0; 3; 2]%nat one_group)).
Proof.
  apply (shuffle_keeps_the_rows [1; 0; 3; 2]%nat one_group).
  simpl. rewrite perm_swap. do 2 constructor. apply perm_swap.
Defined.

Lemma sort_of_shuffle random_indices t p s pc sc :
  dev t = CPU ->
  Py.index (ncols t) p = Some pc ->
  Py.index (ncols t) s = Some sc ->
  Permutation random_indices (seq 0 (nrows t)) ->
  keys_distinct pc sc (rows t) ->
  sort_tensor_by_indices (shuffle_tensor_rows random_indices t) p s
  = sort_tensor_by_indices t p s.
Proof.
  intros Hd Hp Hs Hperm Hkeys.
  pose proof (index_rows_perm t random_indices Hperm) as Hshuf.
  rewrite (sort_run t p s pc sc Hd Hp Hs).
  rewrite (sort_run (shuffle_tensor_rows random_indices t) p s pc sc)
    by assumption.
  unfold shuffle_tensor_rows, index_rows in *. cbn [dev ncols rows] in *.
  f_equal. f_equal.
  set (shuffled := map (fun i => nth i (rows t) []) random_indices) in *.
  apply (sorted_perm_unique (fun r1 r2 => key_leb pc sc r1 r2 = true)).
  - apply lexsort_sorted.
  - apply lexsort_sorted.
  - etransitivity; [|etransitivity; [exact Hshuf|]].
    + apply (index_rows_perm (mkTensor (dev t) (ncols t) shuffled)).
      unfold nrows. cbn [rows].
      rewrite <- (read_column_length pc). apply lexsort_perm.
    + symmetry. apply (index_rows_perm t). unfold nrows.
      rewrite <- (read_column_length pc). apply lexsort_perm.
  - assert (Hin : forall r,
              In r (map (fun i => nth i shuffled [])
                      (Np.lexsort (read_column sc shuffled)
                         (read_column pc shuffled))) ->
              In r (rows t)).
    { intros r Hr. eapply Permutation_in; [exact Hshuf|].
      eapply Permutation_in; [|exact Hr].
      apply (index_rows_perm (mkTensor (dev t) (ncols t) shuffled)).
      unfold nrows. cbn [rows].
      rewrite <- (read_column_length pc). apply lexsort_perm. }
    intros a b Ha Hb. apply Hkeys; auto.
  - intros a _. apply key_leb_refl.
Qed.

(** X13. Sorting undoes the shuffle: when no two different rows tie on the two
    key columns, the sort of the shuffled table is the sort of the table,
    whatever permutation was drawn. *)
Theorem sort_undoes_the_shuffle random_indices t p s pc sc :
  dev t = CPU ->
  Py.index (ncols t) p = Some pc ->
  Py.index (ncols t) s = Some sc ->
  Permutation random_indices (seq 0 (nrows t)) ->
  keys_distinct pc sc (rows t) ->
  sort_tensor_by_indices (shuffle_tensor_rows random_indices t) p s
  = sort_tensor_by_indices t p s.
Proof. apply sort_of_shuffle. Qed.

(** ** [generate_synthetic_temporal_dataset] *)

Section Generated.

Local Open Scope nat_scope.

Lemma arange_length n : length (Np.arange n) = n.
Proof. unfold Np.arange. now rewrite length_map, length_seq. Qed.

Lemma nth_arange n i : i < n -> nth i (Np.arange n) 0%Z = Z.of_nat i.
Proof.
  intros H. unfold Np.arange.
  change 0%Z with (Z.of_nat 0). rewrite map_nth, seq_nth; [reflexivity|lia].
Qed.

Lemma in_arange n z : In z (Np.arange n) <-> exists i, i < n /\ z = Z.of_nat i.
Proof.
  unfold Np.arange. rewrite in_map_iff. split.
  - intros (i & <- & Hi). apply in_seq in Hi. exists i. lia.
  - intros (i & Hi & ->). exists i. split; [reflexivity|]. apply in_seq. lia.
Qed.

Lemma repeat_each_length {A} (v : list A) n :
  length (Np.repeat_each v n) = length v * n.
Proof.
  unfold Np.repeat_each. induction v as [|a v IH]; simpl; [reflexivity|].
  now rewrite length_app, repeat_length, IH.
Qed.

Lemma nth_repeat_each {A} (v : list A) n i d :
  i < length v * n -> nth i (Np.repeat_each v n) d = nth (i / n) v d.
Proof.
  unfold Np.repeat_each. revert i.
  induction v as [|a v IH]; intros i Hi; simpl in *; [lia|].
  assert (Hn : 0 < n) by nia.
  destruct (Nat.lt_ge_cases i n) as [Hlt|Hge].
  - rewrite app_nth1 by now rewrite repeat_length.
    rewrite Nat.div_small by exact Hlt. apply nth_repeat_lt. exact Hlt.
  - rewrite app_nth2 by now rewrite repeat_length.
    rewrite repeat_length, IH by lia.
    replace i with ((i - n) + 1 * n) at 2 by lia.
    rewrite Nat.div_add by lia.
    now rewrite Nat.add_1_r.
Qed.

Lemma in_repeat_each {A} (v : list A) n x :
  In x (Np.repeat_each v n) -> In x v.
Proof.
  unfold Np.repeat_each. rewrite in_flat_map.
  intros (y & Hy & Hx). apply repeat_spec in Hx. now subst.
Qed.

Lemma sorted_seq (R : nat -> nat -> Prop) a n :
  (forall i j, a <= i -> i < j -> j < a + n -> R i j) ->
  StronglySorted R (seq a n).
Proof.
  revert a. induction n as [|n IH]; intros a H; simpl; constructor.
  - apply IH. intros i j Hi Hij Hj. apply H; lia.
  - apply Forall_forall. intros j Hj. apply in_seq in Hj. apply H; lia.
Qed.

Lemma arange_sorted n : StronglySorted Z.lt (Np.arange n).
Proof.
  unfold Np.arange. apply (proj1 (sorted_map Z.of_nat Z.lt (seq 0 n))).
  apply sorted_seq. intros. lia.
Qed.

End Generated.

Lemma index_nonneg n j :
  0 <= j < Z.of_nat n -> Py.index n j = Some (Z.to_nat j).
Proof.
  intros H. unfold Py.index.
  destruct (Z.leb_spec 0 j); [|lia].
  destruct (Z.ltb_spec j (Z.of_nat n)); [reflexivity|lia].
Qed.

Section GeneratedTable.

Variable feature_array : nat -> nat -> Z.
Variable target_array : nat -> Z.
Variables num_groups num_time_steps num_features : nat.

Let d : Tensor :=
  generate_synthetic_temporal_dataset feature_array target_array
    num_groups num_time_steps num_features.

Let n_rows : nat := (num_groups * num_time_steps)%nat.

Lemma generated_nrows : nrows d = n_rows.
Proof. unfold nrows, d. simpl. now rewrite length_map, length_seq. Qed.

Lemma generated_well_formed : well_formed d.
Proof.
  unfold well_formed, d. simpl. rewrite Forall_map.
  apply Forall_forall. intros i _. simpl.
  rewrite length_app, length_map, length_seq. simpl. lia.
Qed.

Lemma generated_time_column :
  column d 1 = Some (map Num (tile (Np.arange num_time_steps) num_groups)).
Proof.
  unfold column. rewrite index_nonneg by (simpl ncols; lia).
  f_equal. unfold d, read_column. simpl. rewrite map_map. simpl.
  rewrite <- (map_map (fun i => nth i _ 0) Num).
  f_equal.
  apply map_nth_seq_len. now rewrite tile_length, arange_length.
Qed.

Lemma generated_group_column :
  column d 2
  = Some (map Num (Np.repeat_each (Np.arange num_groups) num_time_steps)).
Proof.
  unfold column. rewrite index_nonneg by (simpl ncols; lia).
  f_equal. unfold d, read_column. simpl. rewrite map_map. simpl.
  rewrite <- (map_map (fun i => nth i _ 0) Num).
  f_equal.
  apply map_nth_seq_len. now rewrite repeat_each_length, arange_length.
Qed.

Lemma generated_index_column :
  column d 0 = Some (map Num (Np.arange n_rows)).
Proof.
  unfold column. rewrite index_nonneg by (simpl ncols; lia).
  f_equal. unfold d, read_column. simpl. rewrite map_map. simpl.
  rewrite <- (map_map (fun i => nth i _ 0) Num).
  f_equal.
  apply map_nth_seq_len. now rewrite arange_length.
Qed.

Lemma generated_target_column :
  column d (-1) = Some (map (fun i => Num (target_array i)) (seq 0 n_rows)).
Proof.
  unfold column. replace (ncols d) with (S (2 + (num_features + 1)))%nat
    by (unfold d; simpl; lia).
  rewrite index_last. f_equal. unfold d, read_column. simpl.
  rewrite map_map. apply map_ext. intros i. simpl.
  rewrite Nat.add_1_r. simpl.
  rewrite app_nth2 by (rewrite length_map, length_seq; lia).
  rewrite length_map, length_seq, Nat.sub_diag. reflexivity.
Qed.

Lemma generated_key_indices :
  Py.index (ncols d) 1 = Some 1%nat /\ Py.index (ncols d) 2 = Some 2%nat.
Proof.
  split; rewrite index_nonneg by (simpl ncols; lia); reflexivity.
Qed.

End GeneratedTable.

Lemma nth_map_num l i :
  (i < length l)%nat -> nth i (map Num l) NaN = Num (nth i l 0).
Proof.
  intros H. rewrite (nth_indep _ NaN (Num 0)) by now rewrite length_map.
  apply (map_nth Num).
Qed.

Lemma column_read t j c v :
  Py.index (ncols t) j = Some c -> column t j = Some v ->
  read_column c (rows t) = v.
Proof. unfold column. intros ->. now intros [= <-]. Qed.

Section GeneratedOrder.

Local Open Scope nat_scope.

Variable feature_array : nat -> nat -> Z.
Variable target_array : nat -> Z.
Variables num_groups num_time_steps num_features : nat.

Let d : Tensor :=
  generate_synthetic_temporal_dataset feature_array target_array
    num_groups num_time_steps num_features.

Let n_rows : nat := num_groups * num_time_steps.

Lemma generated_time_at i :
  i < n_rows ->
  nth 1 (nth i (rows d) []) NaN = Num (Z.of_nat (i mod num_time_steps)).
Proof.
  intros Hi. rewrite <- nth_read_column.
  rewrite (column_read d 1 1 _ (proj1 (generated_key_indices _ _ _ _ _))
             (generated_time_column _ _ _ _ _)).
  rewrite nth_map_num by (now rewrite tile_length, arange_length).
  rewrite nth_tile by (now rewrite arange_length).
  rewrite arange_length.
  rewrite nth_arange; [reflexivity|].
  apply Nat.mod_upper_bound. unfold n_rows in Hi. nia.
Qed.

Lemma generated_group_at i :
  i < n_rows ->
  nth 2 (nth i (rows d) []) NaN = Num (Z.of_nat (i / num_time_steps)).
Proof.
  intros Hi. rewrite <- nth_read_column.
  rewrite (column_read d 2 2 _ (proj2 (generated_key_indices _ _ _ _ _))
             (generated_group_column _ _ _ _ _)).
  rewrite nth_map_num by (now rewrite repeat_each_length, arange_length).
  rewrite nth_repeat_each by (now rewrite arange_length).
  rewrite nth_arange; [reflexivity|].
  apply Nat.Div0.div_lt_upper_bound. unfold n_rows in Hi. nia.
Qed.

(** The keys of the generated rows increase strictly with the position. *)
Lemma generated_keys_increase i j :
  i < j -> j < n_rows ->
  key_leb 2 1 (nth i (rows d) []) (nth j (rows d) []) = true
  /\ key_leb 2 1 (nth j (rows d) []) (nth i (rows d) []) = false.
Proof.
  intros Hij Hj. unfold key_leb, Np.scalar_ltb.
  rewrite !generated_time_at, !generated_group_at by lia.
  assert (Hn : 0 < num_time_steps) by (unfold n_rows in Hj; nia).
  pose proof (Nat.div_mod_eq i num_time_steps) as Hi'.
  pose proof (Nat.div_mod_eq j num_time_steps) as Hj'.
  pose proof (Nat.mod_upper_bound i num_time_steps ltac:(lia)) as Hmi.
  pose proof (Nat.mod_upper_bound j num_time_steps ltac:(lia)) as Hmj.
  assert (Hle : i / num_time_steps <= j / num_time_steps)
    by (apply Nat.Div0.div_le_mono; lia).
  assert (Heq : i / num_time_steps = j / num_time_steps ->
                i mod num_time_steps < j mod num_time_steps) by nia.
  set (gi := i / num_time_steps) in *. set (gj := j / num_time_steps) in *.
  set (mi := i mod num_time_steps) in *.
  set (mj := j mod num_time_steps) in *.
  clearbody gi gj mi mj. clear Hi' Hj'.
  simpl. split; zcmp.
Qed.

Lemma generated_rows_sorted : rows_sorted 2 1 (rows d).
Proof.
  unfold rows_sorted.
  rewrite <- (map_nth_seq_len (rows d) [] n_rows)
    by (symmetry; apply generated_nrows).
  apply (proj1 (sorted_map (fun i => nth i (rows d) []) _ (seq 0 n_rows))).
  apply sorted_seq. intros i j _ Hij Hj.
  now apply generated_keys_increase.
Qed.

Lemma generated_keys_distinct : keys_distinct 2 1 (rows d).
Proof.
  intros r1 r2 H1 H2 H12 H21.
  apply (In_nth _ _ []) in H1, H2.
  destruct H1 as (i & Hi & <-). destruct H2 as (j & Hj & <-).
  fold (nrows d) in Hi, Hj. unfold d in Hi, Hj.
  rewrite generated_nrows in Hi, Hj. fold d in Hi, Hj.
  destruct (Nat.lt_trichotomy i j) as [H|[->|H]]; [|reflexivity|].
  - destruct (generated_keys_increase i j H Hj) as [_ E]. congruence.
  - destruct (generated_keys_increase j i H Hi) as [_ E]. congruence.
Qed.

End GeneratedOrder.

(** ** Tables of equal groups *)

Lemma combine_app_eq {A B} (a a' : list A) (b b' : list B) :
  length a = length b ->
  combine (a ++ a') (b ++ b') = combine a b ++ combine a' b'.
Proof.
  revert b. induction a as [|x a IH]; intros [|y b] H; simpl in *;
    try discriminate; [reflexivity|].
  f_equal. apply IH. lia.
Qed.

Lemma combine_tile (span gs : list Z) :
  combine (tile span (length gs)) (Np.repeat_each gs (length span))
  = flat_map (fun g => combine span (repeat g (length span))) gs.
Proof.
  unfold tile, Np.repeat_each.
  induction gs as [|g gs IH]; simpl; [reflexivity|].
  rewrite combine_app_eq by now rewrite repeat_length.
  now rewrite IH.
Qed.

Lemma filter_block (span : list Z) (g g' : Z) n :
  filter (fun p : Z * Z => snd p =? g) (combine span (repeat g' n))
  = if g' =? g then combine span (repeat g' n) else [].
Proof.
  revert n. induction span as [|z span IH]; intros [|n]; simpl;
    try (now destruct (g' =? g)).
  rewrite IH. now destruct (g' =? g).
Qed.

Lemma fst_block (span : list Z) (g : Z) :
  map fst (combine span (repeat g (length span))) = span.
Proof.
  induction span as [|z span IH]; simpl; [reflexivity|now rewrite IH].
Qed.

Lemma times_of_group_tile span gs g :
  NoDup gs -> In g gs ->
  times_of_group (tile span (length gs)) (Np.repeat_each gs (length span)) g
  = span.
Proof.
  intros Hd Hin. unfold times_of_group. rewrite combine_tile.
  induction Hd as [|g' gs Hnotin Hd IH]; [destruct Hin|].
  simpl. rewrite filter_app, map_app, filter_block.
  destruct (Z.eqb_spec g' g) as [->|Hne].
  - rewrite fst_block.
    assert (E : filter (fun p : Z * Z => snd p =? g)
                  (flat_map (fun g0 => combine span (repeat g0 (length span)))
                     gs) = []).
    { clear IH Hd Hin. induction gs as [|h gs IHg]; simpl; [reflexivity|].
      rewrite filter_app, filter_block.
      destruct (Z.eqb_spec h g) as [->|_]; [exfalso; apply Hnotin; now left|].
      apply IHg. intros H. apply Hnotin. now right. }
    rewrite E. apply app_nil_r.
  - destruct Hin as [H|H]; [contradiction|]. now apply IH.
Qed.

(** A table of [length gs] groups that each span [span], sorted by group
    then time, is a uniform grid. *)
Lemma tile_uniform_grid span gs :
  NoDup gs -> NoDup span ->
  uniform_grid (tile span (length gs)) (Np.repeat_each gs (length span)) span.
Proof.
  intros Hg Hs. split; [exact Hs|].
  intros g Hin. apply in_repeat_each in Hin.
  now rewrite times_of_group_tile.
Qed.

(** ** The subset oracle *)

Lemma add_columns_length fadd x y :
  length x = length y -> length (add_columns fadd x y) = length x.
Proof.
  revert y. induction x as [|a x IH]; intros [|b y] H; simpl in *;
    try discriminate; [reflexivity|].
  f_equal. apply IH. lia.
Qed.

Lemma add_columns_select fadd m x y :
  length x = length y ->
  add_columns fadd (Torch.mask_select m x) (Torch.mask_select m y)
  = Torch.mask_select m (add_columns fadd x y).
Proof.
  revert x y. induction m as [|b m IH]; intros [|u x] [|v y] H; simpl in *;
    try discriminate; try reflexivity.
  destruct b; simpl; rewrite IH by lia; reflexivity.
Qed.

Lemma nth_add_columns fadd x y i :
  length x = length y -> (i < length x)%nat ->
  nth i (add_columns fadd x y) NaN
  = match nth i x NaN, nth i y NaN with
    | Num u, Num v => Num (fadd u v)
    | _, _ => NaN
    end.
Proof.
  revert y i. induction x as [|a x IH]; intros [|b y] i H Hi; simpl in *;
    try discriminate; try lia.
  destruct i as [|i]; [reflexivity|]. apply IH; lia.
Qed.

(** The oracle's membership test, entry by entry. *)
Lemma all_selected_isin m a sums :
  length m = length a ->
  (forall i, (i < length a)%nat -> nth i m false = true ->
     existsb (scalar_eqb (nth i a NaN)) sums = true) ->
  forallb id (Torch.isin (Torch.mask_select m a) sums) = true.
Proof.
  unfold Torch.isin. revert a.
  induction m as [|b m IH]; intros [|x a] Hl H; simpl in *;
    try discriminate; try reflexivity.
  assert (Hrec : forallb id
            (map (fun e => existsb (scalar_eqb e) sums)
               (Torch.mask_select m a)) = true).
  { apply IH; [lia|]. intros i Hi Hm. apply (H (S i)); [lia|exact Hm]. }
  destruct b; simpl; [|exact Hrec].
  rewrite Hrec, andb_true_r. unfold id.
  apply (H O); [lia|reflexivity].
Qed.

(** The filtered table in overwrite mode, column by column: the rows kept
    are those whose shifted value is not NaN. *)
Lemma filtered_columns cuda t steps force_cpu time_column target c c' :
  cuda || force_cpu = true ->
  well_formed t ->
  column t 1 = Some time_column ->
  column t (-1) = Some target ->
  Py.index (ncols t) (-1) = Some c ->
  (c' < ncols t)%nat ->
  let shifted :=
    masked_column_shifted (time_values_mask time_column steps) target steps in
  let kept := map (fun x => negb (isnan x)) shifted in
  exists out,
    snd (call cuda t (-1) 1 steps force_cpu false false) = Ok out
    /\ ncols out = ncols t
    /\ read_column c (rows out) = Torch.mask_select kept shifted
    /\ (c' <> c ->
        read_column c' (rows out)
        = Torch.mask_select kept (read_column c' (rows t))).
Proof.
  intros Hp Hwf Ht Hs Hc Hc' shifted kept.
  destruct (call_overwrite cuda t (-1) 1 steps force_cpu false
              time_column target c Hp Ht Hs Hc) as (out & Hcall & Hn & Hr).
  fold shifted in Hr.
  assert (Hlen : length shifted = length (rows t)).
  { unfold shifted. rewrite shifted_length.
    - apply (column_length _ _ _ Hs).
    - rewrite mask_length, (column_length _ _ _ Ht).
      symmetry. apply (column_length _ _ _ Hs). }
  assert (Hread : read_column c (write_column c shifted (rows t)) = shifted)
    by (apply read_write_column;
        [exact Hlen|now apply (well_formed_index t (-1))]).
  assert (Hkept : map (not_nan_at c) (write_column c shifted (rows t)) = kept).
  { unfold kept. rewrite <- Hread at 2. unfold read_column.
    now rewrite map_map. }
  exists out. rewrite Hcall. split; [reflexivity|]. split; [exact Hn|].
  rewrite Hr, !read_column_filter, Hkept, Hread. split; [reflexivity|].
  intros Hne. now rewrite read_write_column_other by congruence.
Qed.

Lemma column_index_nonneg t j v :
  0 <= j -> column t j = Some v -> Py.index (ncols t) j = Some (Z.to_nat j).
Proof.
  intros Hj. unfold column, Py.index.
  destruct (Z.leb_spec 0 j); [|lia].
  destruct (Z.ltb_spec j (Z.of_nat (ncols t))); [reflexivity|].
  destruct (Z.leb_spec (- Z.of_nat (ncols t)) j);
    destruct (Z.ltb_spec j 0); simpl; try lia; discriminate.
Qed.

Lemma index_minus_one n c : Py.index n (-1) = Some c -> S c = n.
Proof.
  unfold Py.index.
  destruct (Z.leb_spec 0 (-1)); [lia|].
  destruct (Z.leb_spec (- Z.of_nat n) (-1));
    destruct (Z.ltb_spec (-1) 0); simpl; try discriminate; try lia.
  intros [= <-]. lia.
Qed.

Section SubsetLaw.

Local Open Scope nat_scope.

Variable fadd : Z -> Z -> Z.

(** Every shifted value that is not NaN is the target of a row of the same
    group, so its sum with the group identifier is among the sums of the
    input. *)
Lemma shifted_sum_is_known span gs k target i :
  StronglySorted Z.lt span -> k <= length span ->
  length target = length gs * length span ->
  i < length target ->
  let groups := map Num (Np.repeat_each gs (length span)) in
  let shifted :=
    masked_column_shifted
      (time_values_mask (map Num (tile span (length gs))) (Z.of_nat k))
      target (Z.of_nat k) in
  nth i (map (fun x => negb (isnan x)) shifted) false = true ->
  existsb (scalar_eqb (nth i (add_columns fadd groups shifted) NaN))
    (add_columns fadd groups target) = true.
Proof.
  intros Hs Hk Hl Hi groups shifted Hkept.
  assert (Hsl : length shifted = length target).
  { unfold shifted. apply shifted_length.
    now rewrite mask_length, length_map, tile_length. }
  assert (Hgl : length groups = length target).
  { unfold groups. now rewrite length_map, repeat_each_length. }
  rewrite (nth_indep _ false (negb (isnan NaN))) in Hkept
    by (now rewrite length_map, Hsl).
  rewrite (map_nth (fun x => negb (isnan x))) in Hkept.
  pose proof (shifted_at span (length gs) k target i Hs Hk Hl Hi) as Hat.
  fold shifted in Hat.
  destruct (Nat.ltb_spec (i mod length span + k) (length span)) as [Hin|Hout].
  2:{ rewrite Hat in Hkept. discriminate. }
  assert (Hlen : 0 < length span) by lia.
  pose proof (Nat.div_mod_eq i (length span)) as Hdm.
  assert (Hq : i / length span < length gs).
  { apply Nat.Div0.div_lt_upper_bound. nia. }
  assert (Hik : i + k < length target) by nia.
  assert (Hdiv : (i + k) / length span = i / length span).
  { symmetry. apply (Nat.div_unique _ _ _ (i mod length span + k)); lia. }
  rewrite nth_add_columns by lia.
  assert (Hg : forall j, j < length target ->
                 nth j groups NaN = Num (nth (j / length span) gs 0%Z)).
  { intros j Hj. unfold groups.
    rewrite nth_map_num by (rewrite repeat_each_length; lia).
    now rewrite nth_repeat_each by lia. }
  rewrite (Hg i Hi), Hat.
  destruct (nth (i + k) target NaN) as [|v] eqn:Ev.
  { rewrite Hat in Hkept. discriminate. }
  apply existsb_exists.
  exists (nth (i + k) (add_columns fadd groups target) NaN). split.
  - apply nth_In. rewrite add_columns_length; lia.
  - rewrite nth_add_columns by lia.
    rewrite (Hg (i + k) Hik), Hdiv, Ev. simpl. apply Z.eqb_refl.
Qed.

End SubsetLaw.

Lemma subset_on_groups fadd cuda t force_cpu span gs k target :
  cuda || force_cpu = true ->
  well_formed t ->
  StronglySorted Z.lt span ->
  column t 1 = Some (map Num (tile span (length gs))) ->
  column t 2 = Some (map Num (Np.repeat_each gs (length span))) ->
  column t (-1) = Some target ->
  ncols t <> 3%nat ->
  (k <= length span)%nat ->
  exists out,
    snd (call cuda t (-1) 1 (Z.of_nat k) force_cpu false false) = Ok out
    /\ check_if_subset fadd t out = Ok true.
Proof.
  intros Hp Hwf Hs Ht Hg Htg Hn3 Hk.
  pose proof Htg as Hc. unfold column in Hc.
  destruct (Py.index (ncols t) (-1)) as [c|] eqn:Ec; [|discriminate].
  clear Hc. pose proof (index_minus_one _ _ Ec) as Hcn.
  assert (E2 : Py.index (ncols t) 2 = Some 2%nat)
    by exact (column_index_nonneg t 2 _ ltac:(lia) Hg).
  assert (H2 : (2 < ncols t)%nat) by now apply (index_some_lt _ 2).
  destruct (filtered_columns cuda t (Z.of_nat k) force_cpu _ target c 2%nat
              Hp Hwf Ht Htg Ec H2) as (out & Hcall & Hno & Hct & Hcg).
  exists out. split; [exact Hcall|].
  assert (Hl : length target = (length gs * length span)%nat).
  { apply column_length in Ht, Htg.
    rewrite length_map, tile_length in Ht. congruence. }
  unfold check_if_subset. rewrite Hg, Htg.
  unfold column. rewrite Hno, E2, Ec, Hct, Hcg by lia.
  rewrite (column_read t 2 2%nat _ E2 Hg).
  f_equal.
  rewrite add_columns_select.
  2:{ rewrite shifted_length;
        [|now rewrite mask_length, length_map, tile_length].
      now rewrite length_map, repeat_each_length. }
  apply all_selected_isin.
  - rewrite length_map, add_columns_length.
    + rewrite shifted_length;
        [|now rewrite mask_length, length_map, tile_length].
      now rewrite length_map, repeat_each_length.
    + rewrite shifted_length;
        [|now rewrite mask_length, length_map, tile_length].
      now rewrite length_map, repeat_each_length.
  - intros i Hi. rewrite add_columns_length in Hi.
    + rewrite length_map, repeat_each_length in Hi.
      apply shifted_sum_is_known; try assumption. lia.
    + rewrite shifted_length;
        [|now rewrite mask_length, length_map, tile_length].
      now rewrite length_map, repeat_each_length.
Qed.

(** ** The notebook's tests *)

Lemma row_count_on_grid cuda t steps force_cpu retain times groups target span :
  cuda || force_cpu = true ->
  well_formed t ->
  column t 1 = Some (map Num times) ->
  column t 2 = Some (map Num groups) ->
  column t (-1) = Some target ->
  all_num target ->
  uniform_grid times groups span ->
  0 <= steps <= Z.of_nat (length span) ->
  exists out,
    snd (call cuda t (-1) 1 steps force_cpu false retain) = Ok out
    /\ Z.of_nat (nrows t) - Z.of_nat (nrows out)
       = Z.of_nat (length (Torch.unique (map Num groups))) * steps
    /\ check_if_length_correct t out steps = Ok true.
Proof.
  intros Hp Hwf Ht Hg Hs Hn Hgrid Hsteps.
  destruct (removed_rows cuda t steps force_cpu retain _ _ Hp Hwf Ht Hs)
    as (out & Hcall & Hcount).
  exists out. split; [exact Hcall|].
  assert (Hlt : length times = length groups).
  { apply column_length in Ht, Hg. rewrite length_map in Ht, Hg. congruence. }
  rewrite count_nan_shifted in Hcount; [|exact Hn|].
  2:{ rewrite mask_length. apply column_length in Ht, Hs. congruence. }
  destruct (sorted_unique_values times) as (ds & Hd & Hsd & Hdin).
  destruct (unique_values groups) as (gs & Hu & Hgs & Hgin).
  unfold time_values_mask in Hcount.
  rewrite Hd, slice_to_nonneg, firstn_map, count_true_isin in Hcount by lia.
  rewrite (marked_rows_per_group times groups span gs ds) in Hcount;
    auto using strict_nodup_Z; try lia.
  assert (Hlaw : Z.of_nat (nrows t) - Z.of_nat (nrows out)
                 = Z.of_nat (length (Torch.unique (map Num groups))) * steps).
  { rewrite Hu, length_map. nia. }
  split; [exact Hlaw|].
  unfold check_if_length_correct. rewrite Hg, Hlaw, Z.abs_eq by lia.
  now rewrite Z.eqb_refl.
Qed.

(** X17. The subset law.  On a table of equal groups sorted by group then
    time, whose third column holds the group identifiers, the filtered call
    with the default columns returns a table the subset oracle accepts:
    every surviving shifted value, added to its group identifier, is the sum
    of a row of the input. *)
Theorem subset_oracle_accepts_the_shift fadd cuda t force_cpu span gs k
    target :
  cuda || force_cpu = true ->
  well_formed t ->
  StronglySorted Z.lt span ->
  column t 1 = Some (map Num (tile span (length gs))) ->
  column t 2 = Some (map Num (Np.repeat_each gs (length span))) ->
  column t (-1) = Some target ->
  ncols t <> 3%nat ->
  (k <= length span)%nat ->
  exists out,
    snd (call cuda t (-1) 1 (Z.of_nat k) force_cpu false false) = Ok out
    /\ check_if_subset fadd t out = Ok true.
Proof. apply subset_on_groups. Qed.

Lemma subset_oracle_accepts_the_shift_witness :
  exists out,
    snd (call false two_groups (-1) 1 (Z.of_nat 1) true false false) = Ok out
    /\ check_if_subset Z.add two_groups out = Ok true.
Proof.
  apply (subset_oracle_accepts_the_shift Z.add false two_groups true
           [0; 1; 2] [0; 1] 1
           [Num 10; Num 20; Num 30; Num 40; Num 50; Num 60]).
  - reflexivity.
  - unfold well_formed; simpl. repeat constructor.
  - repeat constructor.
  - reflexivity.
  - reflexivity.
  - reflexivity.
  - simpl. lia.
  - simpl. lia.
Defined.

(** X15. The generated table, column by column: [n] rows of [3 + F + 1] cells,
    the row number, the time index cycling through [0 .. T-1], the group
    identifier repeated [T] times, the drawn features and the drawn
    target. *)
Theorem generated_table_layout feature_array target_array
    num_groups num_time_steps num_features :
  let d := generate_synthetic_temporal_dataset feature_array target_array
             num_groups num_time_steps num_features in
  let n_rows := (num_groups * num_time_steps)%nat in
  well_formed d
  /\ dev d = CPU
  /\ nrows d = n_rows
  /\ ncols d = (num_features + 4)%nat
  /\ column d 0 = Some (map Num (Np.arange n_rows))
  /\ column d 1
     = Some (map Num (tile (Np.arange num_time_steps) num_groups))
  /\ column d 2
     = Some (map Num (Np.repeat_each (Np.arange num_groups) num_time_steps))
  /\ column d (-1)
     = Some (map (fun i => Num (target_array i)) (seq 0 n_rows)).
Proof.
  intros d n_rows.
  split; [apply generated_well_formed|]. split; [reflexivity|].
  split; [apply generated_nrows|]. split; [simpl; lia|].
  split; [apply generated_index_column|].
  split; [apply generated_time_column|].
  split; [apply generated_group_column|apply generated_target_column].
Qed.

(** X16. The generated table is already sorted by group, then time: the sort
    returns it as it is. *)
Theorem generated_table_is_sorted feature_array target_array
    num_groups num_time_steps num_features :
  sort_tensor_by_indices
    (generate_synthetic_temporal_dataset feature_array target_array
       num_groups num_time_steps num_features) 2 1
  = inl (generate_synthetic_temporal_dataset feature_array target_array
           num_groups num_time_steps num_features).
Proof.
  apply (sort_sorted_table_id _ 2 1 2%nat 1%nat).
  - reflexivity.
  - apply generated_key_indices.
  - apply generated_key_indices.
  - apply generated_rows_sorted.
Qed.

(** X20. The whole test of the notebook, for any size and any draw: generate,
    shuffle, sort by group then time, shift by [k <= T] steps and filter.
    The sort restores the generated table, and both oracles accept the
    result. *)
Theorem generated_tables_pass_both_tests fadd feature_array target_array
    num_groups num_time_steps num_features random_indices k cuda force_cpu :
  cuda || force_cpu = true ->
  Permutation random_indices (seq 0 (num_groups * num_time_steps)) ->
  (k <= num_time_steps)%nat ->
  let data := generate_synthetic_temporal_dataset feature_array target_array
                num_groups num_time_steps num_features in
  exists new_data,
    sort_tensor_by_indices (shuffle_tensor_rows random_indices data) 2 1
    = inl data
    /\ snd (call cuda data (-1) 1 (Z.of_nat k) force_cpu false false)
       = Ok new_data
    /\ check_if_subset fadd data new_data = Ok true
    /\ check_if_length_correct data new_data (Z.of_nat k) = Ok true.
Proof.
  intros Hp Hperm Hk data.
  assert (Hsort : sort_tensor_by_indices
                    (shuffle_tensor_rows random_indices data) 2 1
                  = inl data).
  { rewrite (sort_of_shuffle random_indices data 2 1 2%nat 1%nat).
    - apply (sort_sorted_table_id _ 2 1 2%nat 1%nat);
        [reflexivity|apply generated_key_indices..
        |apply generated_rows_sorted].
    - reflexivity.
    - apply generated_key_indices.
    - apply generated_key_indices.
    - unfold data. now rewrite generated_nrows.
    - apply generated_keys_distinct. }
  pose proof (generated_well_formed feature_array target_array num_groups
                num_time_steps num_features) as Hwf.
  pose proof (generated_time_column feature_array target_array num_groups
                num_time_steps num_features) as Ht.
  pose proof (generated_group_column feature_array target_array num_groups
                num_time_steps num_features) as Hg.
  pose proof (generated_target_column feature_array target_array num_groups
                num_time_steps num_features) as Htg.
  fold data in Hwf, Ht, Hg, Htg.
  destruct (subset_on_groups fadd cuda data force_cpu
              (Np.arange num_time_steps) (Np.arange num_groups) k
              (map (fun i => Num (target_array i))
                 (seq 0 (num_groups * num_time_steps)))
              Hp Hwf (arange_sorted _))
    as (out & Hcall & Hsub).
  { now rewrite arange_length. }
  { now rewrite arange_length. }
  { exact Htg. }
  { unfold data. simpl. lia. }
  { now rewrite arange_length. }
  destruct (row_count_on_grid cuda data (Z.of_nat k) force_cpu false
              _ _ _ (Np.arange num_time_steps) Hp Hwf Ht Hg Htg)
    as (out' & Hcall' & _ & Hlen).
  { unfold all_num. rewrite Forall_map. now apply Forall_forall. }
  { pose proof (tile_uniform_grid (Np.arange num_time_steps)
                  (Np.arange num_groups)
                  (strict_nodup_Z _ (arange_sorted _))
                  (strict_nodup_Z _ (arange_sorted _))) as Hgrid.
    now rewrite !arange_length in Hgrid. }
  { rewrite arange_length. lia. }
  rewrite Hcall in Hcall'. injection Hcall' as <-.
  exists out. auto.
Qed.

Lemma generated_tables_pass_both_tests_witness :
  exists new_data,
    sort_tensor_by_indices
      (shuffle_tensor_rows [4; 0; 5; 2; 1; 3]%nat
         (generate_synthetic_temporal_dataset sample_features sample_targets
            2 3 1)) 2 1
    = inl (generate_synthetic_temporal_dataset sample_features
             sample_targets 2 3 1)
    /\ snd (call false
              (generate_synthetic_temporal_dataset sample_features
                 sample_targets 2 3 1) (-1) 1 (Z.of_nat 2) true false false)
       = Ok new_data
    /\ check_if_subset Z.add
         (generate_synthetic_temporal_dataset sample_features sample_targets
            2 3 1) new_data = Ok true
    /\ check_if_length_correct
         (generate_synthetic_temporal_dataset sample_features sample_targets
            2 3 1) new_data (Z.of_nat 2) = Ok true.
Proof.
  apply (generated_tables_pass_both_tests Z.add sample_features
           sample_targets 2 3 1 [4; 0; 5; 2; 1; 3]%nat 2 false true).
  - reflexivity.
  - simpl.
    apply (perm_trans (l' := [0; 4; 5; 2; 1; 3]%nat)); [apply perm_swap|].
    constructor.
    apply (perm_trans (l' := [4; 2; 5; 1; 3]%nat));
      [constructor; apply perm_swap|].
    apply (perm_trans (l' := [4; 2; 1; 5; 3]%nat));
      [do 2 constructor; apply perm_swap|].
    apply (perm_trans (l' := [2; 4; 1; 5; 3]%nat)); [apply perm_swap|].
    apply (perm_trans (l' := [2; 1; 4; 5; 3]%nat));
      [constructor; apply perm_swap|].
    apply (perm_trans (l' := [1; 2; 4; 5; 3]%nat)); [apply perm_swap|].
    do 2 constructor.
    apply (perm_trans (l' := [4; 3; 5]%nat));
      [constructor; apply perm_swap|].
    apply (perm_trans (l' := [3; 4; 5]%nat)); [apply perm_swap|].
    reflexivity.
  - lia.
Defined.

(** ** Edges of the shifter *)

Lemma map_all_true {A} (f : A -> bool) l :
  (forall x, In x l -> f x = true) -> map f l = repeat true (length l).
Proof.
  induction l as [|a l IH]; intros H; simpl; [reflexivity|].
  rewrite H by now left. f_equal. apply IH. intros x Hx. apply H. now right.
Qed.

Lemma where_all_masked x :
  Torch.where_ (map negb (repeat true (length x))) x (Torch.full_like x NaN)
  = repeat NaN (length x).
Proof.
  unfold Torch.full_like. induction x as [|a x IH]; simpl; [reflexivity|].
  now rewrite IH.
Qed.

Lemma count_nan_repeat n : count_nan (repeat NaN n) = n.
Proof.
  unfold count_nan. induction n as [|n IH]; simpl; [reflexivity|].
  now rewrite IH.
Qed.

(** With at least as many steps as distinct time values, every row is
    marked. *)
Lemma mask_all_marked zs steps :
  Z.of_nat (length (Torch.unique (map Num zs))) <= steps ->
  time_values_mask (map Num zs) steps = repeat true (length zs).
Proof.
  intros H. destruct (sorted_unique_values zs) as (ds & Hd & _ & Hin).
  unfold time_values_mask. rewrite Hd, slice_to_nonneg by lia.
  assert (Hlen : length (map Num ds) = length (Torch.unique (map Num zs))).
  { rewrite <- Hd. apply Permutation_length, sort_perm. }
  rewrite firstn_all2 by (rewrite Hlen; lia).
  unfold Torch.isin. rewrite map_map.
  apply map_all_true. intros z Hz. apply existsb_num. now apply Hin.
Qed.

Lemma steps_censor_everything cuda t steps force_cpu retain zs target :
  cuda || force_cpu = true ->
  well_formed t ->
  column t 1 = Some (map Num zs) ->
  column t (-1) = Some target ->
  Z.of_nat (length (Torch.unique (map Num zs))) <= steps ->
  exists out,
    snd (call cuda t (-1) 1 steps force_cpu false retain) = Ok out
    /\ rows out = [].
Proof.
  intros Hp Hwf Ht Hs Hsteps.
  destruct (removed_rows cuda t steps force_cpu retain _ _ Hp Hwf Ht Hs)
    as (out & Hcall & Hcount).
  exists out. split; [exact Hcall|].
  assert (Hl : length zs = length target).
  { apply column_length in Ht, Hs. rewrite length_map in Ht. congruence. }
  unfold masked_column_shifted in Hcount.
  rewrite (count_nan_perm _ _ (roll_perm _ _)) in Hcount.
  rewrite mask_all_marked, Hl, where_all_masked, count_nan_repeat in Hcount
    by exact Hsteps.
  rewrite (column_length _ _ _ Hs) in Hcount.
  apply length_zero_iff_nil. unfold nrows in Hcount. lia.
Qed.

(** X4. Too many steps.  When [steps], of machine size, is at least the
    number of distinct time values of a NaN-free time column, the call
    raises nothing: every row is marked and the filtered table is empty,
    whatever the target holds. *)
Theorem too_many_steps_censor_every_row cuda t steps force_cpu retain zs
    target :
  cuda || force_cpu = true ->
  well_formed t ->
  steps_fit t steps ->
  column t 1 = Some (map Num zs) ->
  column t (-1) = Some target ->
  Z.of_nat (length (Torch.unique (map Num zs))) <= steps ->
  time_values_mask (map Num zs) steps = repeat true (length zs)
  /\ exists out,
       snd (call cuda t (-1) 1 steps force_cpu false retain) = Ok out
       /\ rows out = [].
Proof.
  intros Hp Hwf _ Ht Hs Hsteps. split; [now apply mask_all_marked|].
  now apply (steps_censor_everything cuda t steps force_cpu retain zs target).
Qed.

Lemma too_many_steps_censor_every_row_witness :
  time_values_mask (map Num [0; 1; 2; 0; 1; 2]) 7 = repeat true 6
  /\ exists out,
       snd (call false two_groups (-1) 1 7 true false false) = Ok out
       /\ rows out = [].
Proof.
  apply (too_many_steps_censor_every_row false two_groups 7 true false
           [0; 1; 2; 0; 1; 2]
           [Num 10; Num 20; Num 30; Num 40; Num 50; Num 60]).
  - reflexivity.
  - unfold well_formed; simpl. repeat constructor.
  - vm_compute. reflexivity.
  - reflexivity.
  - reflexivity.
  - simpl. lia.
Defined.







Lemma slice_to_negative {A} k (v : list A) :
  (1 <= k)%nat -> Py.slice_to (- Z.of_nat k) v = firstn (length v - k) v.
Proof.
  intros H. unfold Py.slice_to.
  destruct (Z.leb_spec 0 (- Z.of_nat k)); [lia|].
  now rewrite Z.opp_involutive, Nat2Z.id.
Qed.

(** On a uniform grid the distinct time values are those of the span. *)
Lemma grid_distinct_count times groups span ds :
  length times = length groups ->
  uniform_grid times groups span ->
  NoDup ds -> (forall z, In z ds <-> In z times) ->
  (length ds <= length span)%nat
  /\ (groups <> [] -> length ds = length span).
Proof.
  intros Hl [Hspan Hgrid] Hds Hin.
  assert (Hle : (length ds <= length span)%nat).
  { apply NoDup_incl_length; [exact Hds|].
    intros z Hz. apply Hin in Hz.
    destruct (in_combine_left times groups z Hl Hz) as [g Hg].
    eapply Permutation_in; [apply (Hgrid g)|].
    - eapply in_combine_r. exact Hg.
    - now apply in_times_of_group. }
  split; [exact Hle|]. intros Hne.
  destruct groups as [|g groups']; [congruence|].
  apply Nat.le_antisymm; [exact Hle|].
  apply NoDup_incl_length; [exact Hspan|].
  intros z Hz. apply Hin. eapply times_of_group_incl.
  eapply Permutation_in; [symmetry; apply (Hgrid g); now left|exact Hz].
Qed.

(** X3. Negative steps.  On a uniform grid with a NaN-free target, [steps =
    -k] with [1 <= k <= L] removes [L - k] rows per group, not [k]: the
    slice [[:steps]] keeps all but the [k] largest time values.  The oracle
    accepts the result only when the two counts happen to agree. *)
Theorem negative_steps_remove_the_complement cuda t k force_cpu retain
    times groups target span :
  cuda || force_cpu = true ->
  well_formed t ->
  column t 1 = Some (map Num times) ->
  column t 2 = Some (map Num groups) ->
  column t (-1) = Some target ->
  all_num target ->
  uniform_grid times groups span ->
  (1 <= k <= length span)%nat ->
  let G := length (Torch.unique (map Num groups)) in
  exists out,
    snd (call cuda t (-1) 1 (- Z.of_nat k) force_cpu false retain) = Ok out
    /\ (nrows t - nrows out = G * (length span - k))%nat
    /\ check_if_length_correct t out (- Z.of_nat k)
       = Ok (Z.of_nat (G * (length span - k)) =? Z.of_nat G * Z.of_nat k).
Proof.
  intros Hp Hwf Ht Hg Hs Hn Hgrid Hk G.
  destruct (removed_rows cuda t (- Z.of_nat k) force_cpu retain _ _
              Hp Hwf Ht Hs) as (out & Hcall & Hcount).
  exists out. split; [exact Hcall|].
  assert (Hlt : length times = length groups).
  { apply column_length in Ht, Hg. rewrite length_map in Ht, Hg. congruence. }
  rewrite count_nan_shifted in Hcount; [|exact Hn|].
  2:{ rewrite mask_length. apply column_length in Ht, Hs. congruence. }
  destruct (sorted_unique_values times) as (ds & Hd & Hsd & Hdin).
  destruct (unique_values groups) as (gs & Hu & Hgs & Hgin).
  destruct (grid_distinct_count times groups span ds Hlt Hgrid
              (strict_nodup_Z _ Hsd) Hdin) as [Hle Heq].
  unfold time_values_mask in Hcount.
  rewrite Hd, slice_to_negative, length_map, firstn_map, count_true_isin
    in Hcount by lia.
  rewrite (marked_rows_per_group times groups span gs ds) in Hcount;
    auto using strict_nodup_Z; try lia.
  assert (HG : G = length gs) by (unfold G; now rewrite Hu, length_map).
  assert (Hrows : (length gs * (length ds - k)
                   = length gs * (length span - k))%nat).
  { destruct gs as [|g gs']; [reflexivity|].
    rewrite Heq; [reflexivity|].
    intros E. assert (In g groups) by (apply Hgin; now left).
    rewrite E in *. contradiction. }
  rewrite Hrows, <- HG in Hcount.
  set (removed := (G * (length span - k))%nat) in *.
  assert (Hdiff : (nrows t - nrows out = removed)%nat) by lia.
  split; [exact Hdiff|].
  unfold check_if_length_correct. rewrite Hg. fold G. f_equal. f_equal.
  - lia.
  - rewrite Z.abs_opp, Z.abs_eq by lia. reflexivity.
Qed.

Lemma negative_steps_remove_the_complement_witness :
  exists out,
    snd (call false two_groups (-1) 1 (- Z.of_nat 1) true false false) = Ok out
    /\ Nat.sub (nrows two_groups) (nrows out)
       = Nat.mul (length (Torch.unique (map Num [0; 0; 0; 1; 1; 1])))
           (Nat.sub (length [0; 1; 2]) 1)
    /\ check_if_length_correct two_groups out (- Z.of_nat 1)
       = Ok (Z.of_nat
               (Nat.mul (length (Torch.unique (map Num [0; 0; 0; 1; 1; 1])))
                  (Nat.sub (length [0; 1; 2]) 1))
             =? Z.of_nat (length (Torch.unique (map Num [0; 0; 0; 1; 1; 1])))
                * Z.of_nat 1).
Proof.
  apply (negative_steps_remove_the_complement false two_groups 1 true false
           [0; 1; 2; 0; 1; 2] [0; 0; 0; 1; 1; 1]
           [Num 10; Num 20; Num 30; Num 40; Num 50; Num 60] [0; 1; 2]).
  - reflexivity.
  - unfold well_formed; simpl. repeat constructor.
  - reflexivity.
  - reflexivity.
  - reflexivity.
  - repeat constructor.
  - split.
    + repeat constructor; simpl; intuition lia.
    + intros g [<-|[<-|[<-|[<-|[<-|[<-|[]]]]]]]; reflexivity.
  - simpl. lia.
Defined.

(** ** What the subset oracle sees *)

Lemma forallb_nth_false (l : list bool) i :
  (i < length l)%nat -> nth i l true = false -> forallb id l = false.
Proof.
  revert i. induction l as [|b l IH]; intros [|i] Hi H; simpl in *;
    try lia.
  - now subst.
  - rewrite (IH i) by (assumption || lia). apply andb_false_r.
Qed.

Lemma existsb_nan sums : existsb (scalar_eqb NaN) sums = false.
Proof. induction sums as [|a l IH]; simpl; [reflexivity|exact IH]. Qed.

(** X18. A NaN in a compared cell of the new table makes the oracle answer
    false: a sum with NaN is NaN, and NaN is in no column.  The unfiltered
    output of the shifter is rejected for that reason. *)
Theorem subset_oracle_rejects_nan fadd data new_data group_column
    target_column new_group_column new_target_column i :
  column data 2 = Some group_column ->
  column data (-1) = Some target_column ->
  column new_data 2 = Some new_group_column ->
  column new_data (-1) = Some new_target_column ->
  (i < nrows new_data)%nat ->
  nth i new_group_column NaN = NaN \/ nth i new_target_column NaN = NaN ->
  check_if_subset fadd data new_data = Ok false.
Proof.
  intros Hg Ht Hng Hnt Hi Hnan.
  unfold check_if_subset. rewrite Hg, Ht, Hng, Hnt. f_equal.
  pose proof (column_length _ _ _ Hng) as Lg.
  pose proof (column_length _ _ _ Hnt) as Lt.
  assert (Hlen : length (add_columns fadd new_group_column new_target_column)
                 = nrows new_data)
    by (rewrite add_columns_length; congruence).
  apply (forallb_nth_false _ i).
  - unfold Torch.isin. now rewrite length_map, Hlen.
  - unfold Torch.isin.
    rewrite (nth_indep _ true (existsb (scalar_eqb NaN)
               (add_columns fadd group_column target_column)))
      by (now rewrite length_map, Hlen).
    rewrite (map_nth (fun e => existsb (scalar_eqb e) _)).
    rewrite nth_add_columns by congruence.
    assert (E : match nth i new_group_column NaN,
                      nth i new_target_column NaN with
                | Num u, Num v => Num (fadd u v)
                | _, _ => NaN
                end = NaN).
    { destruct Hnan as [-> | ->]; [reflexivity|].
      now destruct (nth i new_group_column NaN). }
    rewrite E. apply existsb_nan.
Qed.

Lemma subset_oracle_rejects_nan_witness :
  check_if_subset Z.add one_group one_group_shifted = Ok false.
Proof.
  apply (subset_oracle_rejects_nan Z.add one_group one_group_shifted
           [Num 0; Num 0; Num 0; Num 0] [Num 10; Num 20; Num 30; Num 40]
           [Num 0; Num 0; Num 0; Num 0] [Num 20; Num 30; Num 40; NaN] 3).
  - reflexivity.
  - reflexivity.
  - reflexivity.
  - reflexivity.
  - unfold nrows. simpl. lia.
  - right. reflexivity.
Defined.

Lemma column_index_rows t indices j v :
  column t j = Some v ->
  column (index_rows t indices) j = Some (map (fun i => nth i v NaN) indices).
Proof.
  unfold column, index_rows. cbn [ncols rows].
  destruct (Py.index (ncols t) j) as [c|]; [|discriminate].
  intros [= <-]. f_equal. unfold read_column at 1. rewrite map_map.
  apply map_ext. intros i. now rewrite nth_read_column.
Qed.

Lemma add_columns_index fadd x y indices :
  length x = length y ->
  Forall (fun i => (i < length x)%nat) indices ->
  add_columns fadd (map (fun i => nth i x NaN) indices)
    (map (fun i => nth i y NaN) indices)
  = map (fun i => nth i (add_columns fadd x y) NaN) indices.
Proof.
  intros Hl. induction 1 as [|i l Hi _ IH]; simpl; [reflexivity|].
  rewrite IH. f_equal. now rewrite nth_add_columns.
Qed.

Lemma add_columns_all_num fadd x y :
  all_num x -> all_num y -> length x = length y ->
  all_num (add_columns fadd x y).
Proof.
  intros Hx. revert y. induction Hx as [|a x Ha _ IH]; intros y Hy Hl;
    destruct y as [|b y]; simpl in *; try discriminate; [constructor|].
  inversion Hy as [|? ? Hb Hy']; subst.
  constructor; [|apply IH; [exact Hy'|lia]].
  destruct a; [discriminate|]. destruct b; [discriminate|reflexivity].
Qed.

(** X19. The oracle compares sums as a set: any selection of rows of a table
    whose group and target columns hold no NaN, in any order and with
    repetitions, is accepted.  It answers true on the unshifted table as
    well. *)
Theorem subset_oracle_accepts_any_selection fadd data indices group_column
    target_column :
  column data 2 = Some group_column ->
  column data (-1) = Some target_column ->
  all_num group_column ->
  all_num target_column ->
  Forall (fun i => (i < nrows data)%nat) indices ->
  check_if_subset fadd data (index_rows data indices) = Ok true.
Proof.
  intros Hg Ht Hng Hnt Hidx.
  pose proof (column_length _ _ _ Hg) as Lg.
  pose proof (column_length _ _ _ Ht) as Lt.
  unfold check_if_subset.
  rewrite Hg, Ht, (column_index_rows _ _ _ _ Hg),
    (column_index_rows _ _ _ _ Ht).
  f_equal.
  rewrite add_columns_index by (rewrite ?Lg; congruence).
  set (sums := add_columns fadd group_column target_column).
  assert (Hsl : length sums = nrows data)
    by (unfold sums; rewrite add_columns_length; congruence).
  assert (Hsn : all_num sums)
    by (apply add_columns_all_num; congruence).
  unfold Torch.isin. rewrite map_map. apply forallb_forall.
  intros b Hb. apply in_map_iff in Hb. destruct Hb as (i & <- & Hi).
  rewrite Forall_forall in Hidx. specialize (Hidx i Hi).
  unfold id. apply existsb_exists. exists (nth i sums NaN).
  assert (Hin : In (nth i sums NaN) sums) by (apply nth_In; lia).
  split; [exact Hin|].
  unfold all_num in Hsn. rewrite Forall_forall in Hsn.
  specialize (Hsn _ Hin). destruct (nth i sums NaN); [discriminate|].
  simpl. apply Z.eqb_refl.
Qed.

Lemma subset_oracle_accepts_any_selection_witness :
  check_if_subset Z.add two_groups (index_rows two_groups [5; 5; 0]%nat)
  = Ok true.
Proof.
  apply (subset_oracle_accepts_any_selection Z.add two_groups [5; 5; 0]%nat
           [Num 0; Num 0; Num 0; Num 1; Num 1; Num 1]
           [Num 10; Num 20; Num 30; Num 40; Num 50; Num 60]).
  - reflexivity.
  - reflexivity.
  - repeat constructor.
  - repeat constructor.
  - unfold nrows. simpl. repeat constructor.
Defined.

(** ** Instances *)

Lemma sort_undoes_the_shuffle_witness :
  sort_tensor_by_indices (shuffle_tensor_rows [1; 0; 3; 2]%nat one_group) 2 1
  = sort_tensor_by_indices one_group 2 1.
Proof.
  apply (sort_undoes_the_shuffle [1; 0; 3; 2]%nat one_group 2 1 2 1).
  - reflexivity.
  - reflexivity.
  - reflexivity.
  - simpl. rewrite perm_swap. do 2 constructor. apply perm_swap.
  - intros r1 r2 H1 H2. simpl in H1, H2.
    destruct H1 as [<-|[<-|[<-|[<-|[]]]]];
      destruct H2 as [<-|[<-|[<-|[<-|[]]]]];
      intros E1 E2; try reflexivity; discriminate.
Defined.

Lemma caller_table_after_witness :
  fst (call true one_group (-1) 1 1 false false false) = one_group.
Proof.
  apply (caller_table_after true one_group (-1) 1 1 false false false).
  left. reflexivity.
Defined.

Lemma other_columns_are_kept_witness :
  exists keep,
    length keep = nrows one_group
    /\ nrows (mkTensor CPU 5
               [ [Num 0; Num 0; Num 0; Num 7; Num 20];
                 [Num 1; Num 1; Num 0; Num 8; Num 30];
                 [Num 2; Num 2; Num 0; Num 9; Num 40] ]) = count_true keep
    /\ forall c', (c' < ncols one_group)%nat ->
         (false = false -> Py.index (ncols one_group) (-1) <> Some c') ->
         read_column c'
           (rows (mkTensor CPU 5
                    [ [Num 0; Num 0; Num 0; Num 7; Num 20];
                      [Num 1; Num 1; Num 0; Num 8; Num 30];
                      [Num 2; Num 2; Num 0; Num 9; Num 40] ]))
         = Torch.mask_select keep (read_column c' (rows one_group)).
Proof.
  apply (other_columns_are_kept false one_group (-1) 1 1 true false false).
  - unfold well_formed; simpl. repeat constructor.
  - reflexivity.
Defined.

(** ** The filter applied twice *)

Lemma filter_twice {A} (f : A -> bool) l : filter f (filter f l) = filter f l.
Proof.
  induction l as [|a l IH]; simpl; [reflexivity|].
  destruct (f a) eqn:E; simpl; [rewrite E|]; now rewrite ?IH.
Qed.

(** X10. Filtering is idempotent: the censor stage applied to its own result
    removes nothing more. *)
Theorem censor_is_idempotent (data : ref) (s : Tensor) (j : Z) (c : nat) :
  Py.index (ncols (load data s)) j = Some c ->
  exists once twice,
    censor data j false s = (s, Ok once)
    /\ censor once j false s = (s, Ok twice)
    /\ rows (load twice s) = rows (load once s)
    /\ ncols (load twice s) = ncols (load data s).
Proof.
  intros Hc.
  unfold censor, get_column, select_rows, deref, bind, ret, column. simpl.
  rewrite Hc. eexists. eexists. split; [reflexivity|]. simpl.
  rewrite Hc. split; [reflexivity|]. simpl.
  rewrite !mask_select_not_nan. split; [apply filter_twice|reflexivity].
Qed.

Lemma censor_is_idempotent_witness :
  exists once twice,
    censor Caller (-1) false one_group_shifted = (one_group_shifted, Ok once)
    /\ censor once (-1) false one_group_shifted
       = (one_group_shifted, Ok twice)
    /\ rows (load twice one_group_shifted) = rows (load once one_group_shifted)
    /\ ncols (load twice one_group_shifted)
       = ncols (load Caller one_group_shifted).
Proof.
  apply (censor_is_idempotent Caller one_group_shifted (-1) 4).
  reflexivity.
Defined.

(** ** The boundary mask *)

(** X21. For a time column without NaN and a non-negative step count of
    machine size, the boundary mask marks row [i] if and only if the time
    index of row [i] is among the [steps] smallest distinct time values of
    the table. *)
Theorem mask_marks_the_smallest_time_values zs steps i :
  0 <= steps -> word_sized steps -> (i < length zs)%nat ->
  nth i (time_values_mask (map Num zs) steps) false = true
  <-> among_smallest (Z.to_nat steps) zs (nth i zs 0).
Proof.
  intros Hs _ Hi.
  destruct (mask_nth zs steps i Hs Hi) as (ds & Hsd & Hin & ->).
  assert (Hz : In (nth i zs 0) zs) by now apply nth_In.
  unfold among_smallest.
  rewrite <- (distinct_below_sorted ds zs)
    by (auto using strict_nodup_Z).
  rewrite (in_firstn_sorted _ _ _ Hsd) by now apply Hin.
  tauto.
Qed.

Lemma mask_marks_the_smallest_time_values_witness :
  nth 4 (time_values_mask (map Num [0; 1; 2; 0; 1; 2]) 2) false = true
  <-> among_smallest (Z.to_nat 2) [0; 1; 2; 0; 1; 2]
        (nth 4 [0; 1; 2; 0; 1; 2] 0).
Proof.
  apply (mask_marks_the_smallest_time_values [0; 1; 2; 0; 1; 2] 2 4).
  - lia.
  - vm_compute. reflexivity.
  - simpl. lia.
Defined.

(** * The claims *)

(** C1 (the code at the scenario of the specification). One group, time
    steps 0..3, target 10, 20, 30, 40, [steps = 1]: every row receives the
    value of the row one period later, the last row is censored, and the
    survivors sit at time steps 0, 1, 2. *)
Theorem scenario_rows_receive_later_values :
  snd (call false one_group (-1) 1 1 true true false) = Ok one_group_shifted
  /\ target_of (snd (call false one_group (-1) 1 1 true true false))
     = Some [Num 20; Num 30; Num 40; NaN]
  /\ target_of (snd (call false one_group (-1) 1 1 true false false))
     = Some [Num 20; Num 30; Num 40]
  /\ times_of (snd (call false one_group (-1) 1 1 true false false))
     = Some [Num 0; Num 1; Num 2].
Proof. repeat split; reflexivity. Qed.

(** C2 (the code at the failing input). On the time steps 0..3 of the
    one-group table, [steps = -1] marks the rows of the three smallest time
    values, where [steps = 1], its absolute value, marks those of the
    smallest only: the slice of line 283 takes the signed value, and the
    call writes NaN on three rows. *)
Theorem negative_steps_mark_other_rows :
  column one_group 1 = Some [Num 0; Num 1; Num 2; Num 3]
  /\ Py.slice_to (-1) (Torch.sort (Torch.unique [Num 0; Num 1; Num 2; Num 3]))
     = [Num 0; Num 1; Num 2]
  /\ time_values_mask [Num 0; Num 1; Num 2; Num 3] (-1)
     = [true; true; true; false]
  /\ time_values_mask [Num 0; Num 1; Num 2; Num 3] (Z.abs (-1))
     = [true; false; false; false]
  /\ time_values_mask [Num 0; Num 1; Num 2; Num 3] (-1)
     <> time_values_mask [Num 0; Num 1; Num 2; Num 3] (Z.abs (-1))
  /\ target_of (snd (call false one_group (-1) 1 (-1) true true false))
     = Some [Num 40; NaN; NaN; NaN].
Proof. repeat split; try reflexivity. discriminate. Qed.

(** C3 (the code at the failing input). Two groups of three time steps,
    [steps = -1]: four rows are removed, not [2 * 1], and the notebook's
    own oracle rejects the result. *)
Theorem negative_steps_break_the_row_count :
  exists out,
    snd (call false two_groups (-1) 1 (-1) true false false) = Ok out
    /\ (nrows two_groups - nrows out = 4)%nat
    /\ check_if_length_correct two_groups out (-1) = Ok false.
Proof. eexists. split; [reflexivity|]. split; reflexivity. Qed.

(** C4 (the code at the failing input). With two identical time columns,
    naming the second one as time column makes the engine read the feature
    column, not the target column, as the source of the shift. *)
Theorem time_column_setting_moves_the_source :
  target_of (snd (call false two_clocks (-1) 1 1 true true false))
  = Some [Num 20; Num 30; Num 40; NaN]
  /\ target_of (snd (call false two_clocks (-1) 2 1 true true false))
     = Some [Num 8; Num 9; Num 6; NaN].
Proof. split; reflexivity. Qed.

(** C5, as stated, fails: five steps on a table with four distinct time
    values raise nothing, the call returns a table with every row censored;
    and a target column index far out of range raises nothing either when
    the shifted column is appended and the full table returned. *)
Lemma invalid_configurations_raise_nothing :
  call false one_group (-1) 1 5 true false false
  = (one_group, Ok (mkTensor CPU 5 []))
  /\ ~ (exists e, snd (call false one_group (-1) 1 5 true false false)
                  = Raise e)
  /\ Py.index (ncols one_group) 99 = None
  /\ ~ (exists e, snd (call false one_group 99 1 1 true true true)
                  = Raise e).
Proof.
  split; [reflexivity|]. split; [intros [e He]; discriminate He|].
  split; [reflexivity|]. intros [e He]. discriminate He.
Qed.

(** C5, amended. For steps and column indices of machine size: a
    time-column index that is out of range for the table, or a target column
    index that is out of range where it is used (for the table when the
    target is overwritten, for the widened table when the shifted column is
    appended and the result filtered), raises [IndexError] and leaves the
    caller's table as it was.  The magnitude of [steps] against the number
    of distinct time values is never checked: with the time-column index
    strictly between [- ncols] and [ncols] and the target index in range,
    the call returns a table whatever [steps] is. *)
Theorem only_column_indices_are_checked cuda t cidx tidx steps force_cpu
    return_full retain :
  cuda || force_cpu = true ->
  word_sized tidx ->
  word_sized cidx ->
  steps_fit t steps ->
  (column t tidx = None
   \/ (retain = false /\ Py.index (ncols t) cidx = None)
   \/ (retain = true /\ return_full = false
       /\ Py.index (S (ncols t)) cidx = None) ->
   call cuda t cidx tidx steps force_cpu return_full retain
   = (t, Raise IndexError))
  /\ (- Z.of_nat (ncols t) < tidx < Z.of_nat (ncols t) ->
      Py.index (ncols t) cidx <> None ->
      exists out,
        snd (call cuda t cidx tidx steps force_cpu return_full retain)
        = Ok out).
Proof.
  intros Hp _ _ _. split.
  - intros H.
    destruct (column t tidx) as [tc|] eqn:Ht;
      [|apply call_bad_time_column; auto].
    destruct (column t (- tidx)) as [sc|] eqn:Hs;
      [|apply call_bad_time_column; auto].
    destruct H as [H|[[-> H]|(-> & -> & H)]]; try discriminate.
    + apply call_bad_target_column; congruence.
    + apply call_append_bad_index; congruence.
  - intros Hrange Hc.
    destruct (inner_index_defined (ncols t) tidx Hrange) as [Ht Hs].
    unfold column.
    destruct (column t tidx) as [tc|] eqn:Et;
      [|unfold column in Et; destruct (Py.index (ncols t) tidx);
        [discriminate|congruence]].
    destruct (column t (- tidx)) as [sc|] eqn:Es;
      [|unfold column in Es; destruct (Py.index (ncols t) (- tidx));
        [discriminate|congruence]].
    destruct retain.
    + destruct (index_defined _ _ (index_succ _ _ Hc)) as [c' Hc'].
      destruct (call_append cuda t cidx tidx steps force_cpu return_full
                  tc sc c' Hp Et Es (or_intror Hc')) as (out & Hcall & _).
      exists out. now rewrite Hcall.
    + destruct (index_defined _ _ Hc) as [c Hc'].
      destruct (call_overwrite cuda t cidx tidx steps force_cpu return_full
                  tc sc c Hp Et Es Hc') as (out & Hcall & _).
      exists out. now rewrite Hcall.
Qed.

Lemma only_column_indices_are_checked_witness :
  call false one_group (-1) 7 5 true false false
  = (one_group, Raise IndexError)
  /\ exists out,
       snd (call false one_group (-1) 1 5 true false false) = Ok out.
Proof.
  split.
  - apply (only_column_indices_are_checked false one_group (-1) 7 5 true
             false false); try (vm_compute; reflexivity).
    left. reflexivity.
  - apply (only_column_indices_are_checked false one_group (-1) 1 5 true
             false false); try (vm_compute; reflexivity).
    + simpl. lia.
    + intros H. discriminate H.
Defined.

(** C6 (the code at the failing input). Without an accelerator the
    placement option decides between a result and an exception. *)
Theorem placement_decides_the_outcome :
  snd (call false one_group (-1) 1 1 true false false)
  = Ok (mkTensor CPU 5
          [ [Num 0; Num 0; Num 0; Num 7; Num 20];
            [Num 1; Num 1; Num 0; Num 8; Num 30];
            [Num 2; Num 2; Num 0; Num 9; Num 40] ])
  /\ snd (call false one_group (-1) 1 1 false false false)
     = Raise UnboundLocalError.
Proof. split; reflexivity. Qed.

(** C7 (the code at the failing input). A table that already resides on the
    accelerator is overwritten in place: after the call the caller's table
    holds the shifted target column. *)
Theorem resident_input_is_overwritten :
  fst (call true one_group_on_cuda (-1) 1 1 false false false)
  = mkTensor CUDA 5
      [ [Num 0; Num 0; Num 0; Num 7; Num 20];
        [Num 1; Num 1; Num 0; Num 8; Num 30];
        [Num 2; Num 2; Num 0; Num 9; Num 40];
        [Num 3; Num 3; Num 0; Num 6; NaN] ]
  /\ fst (call true one_group_on_cuda (-1) 1 1 false false false)
     <> one_group_on_cuda.
Proof. split; [reflexivity|discriminate]. Qed.

(** C8. With [steps = 0] and the default column settings, no row is marked
    by the boundary mask, the table returned has a target column equal to
    the input's target column, and no row is removed (the unfiltered table,
    or the filtered one when the input target holds no NaN). *)
Theorem zero_steps_is_a_copy cuda t force_cpu return_full retain
    time_column target :
  cuda || force_cpu = true ->
  well_formed t ->
  column t 1 = Some time_column ->
  column t (-1) = Some target ->
  return_full = true \/ Forall (fun x => isnan x = false) target ->
  time_values_mask time_column 0 = repeat false (length time_column)
  /\ exists out,
       snd (call cuda t (-1) 1 0 force_cpu return_full retain) = Ok out
       /\ column out (-1) = Some target
       /\ nrows out = nrows t.
Proof.
  intros Hp Hwf Ht Hs Hnan. split; [apply mask_zero_steps|].
  assert (Hlen : length time_column = length target).
  { rewrite (column_length _ _ _ Ht), (column_length _ _ _ Hs). reflexivity. }
  pose proof Hs as Hs'. unfold column in Hs'.
  destruct (Py.index (ncols t) (-1)) as [c|] eqn:Hc; [|discriminate].
  injection Hs' as Hs'.
  destruct retain.
  - destruct (call_append cuda t (-1) 1 0 force_cpu return_full
                time_column target (ncols t) Hp Ht Hs)
      as (out & Hcall & Hn & Hr).
    { right. apply index_last. }
    rewrite (shifted_zero_steps _ _ Hlen) in Hr.
    assert (Hcol : read_column (ncols t) (append_column target (rows t))
                   = target).
    { apply read_append_column_new; [|exact Hwf].
      rewrite <- Hs'. apply read_column_length. }
    assert (Hrows : rows out = append_column target (rows t)).
    { rewrite Hr. destruct return_full; [reflexivity|].
      apply filter_all, not_nan_rows. rewrite Hcol.
      destruct Hnan; [discriminate|assumption]. }
    exists out. rewrite Hcall. split; [reflexivity|]. split.
    + unfold column. rewrite Hn, index_last, Hrows, Hcol. reflexivity.
    + unfold nrows. rewrite Hrows. apply append_column_length.
      rewrite <- Hs'. apply read_column_length.
  - destruct (call_overwrite cuda t (-1) 1 0 force_cpu return_full
                time_column target c Hp Ht Hs Hc)
      as (out & Hcall & Hn & Hr).
    rewrite (shifted_zero_steps _ _ Hlen) in Hr.
    rewrite <- Hs', write_column_read in Hr.
    assert (Hrows : rows out = rows t).
    { rewrite Hr. destruct return_full; [reflexivity|].
      apply filter_all, not_nan_rows. rewrite Hs'.
      destruct Hnan; [discriminate|assumption]. }
    exists out. rewrite Hcall. split; [reflexivity|]. split.
    + unfold column. rewrite Hn, Hc, Hrows, Hs'. reflexivity.
    + unfold nrows. now rewrite Hrows.
Qed.

Lemma zero_steps_is_a_copy_witness :
  time_values_mask [Num 0; Num 1; Num 2; Num 3] 0 = repeat false 4
  /\ exists out,
       snd (call false one_group (-1) 1 0 true false false) = Ok out
       /\ column out (-1) = Some [Num 10; Num 20; Num 30; Num 40]
       /\ nrows out = nrows one_group.
Proof.
  apply (zero_steps_is_a_copy false one_group true false false
           [Num 0; Num 1; Num 2; Num 3] [Num 10; Num 20; Num 30; Num 40]).
  - reflexivity.
  - unfold well_formed; simpl. repeat constructor.
  - reflexivity.
  - reflexivity.
  - right. repeat constructor.
Defined.

(** C9. The censor stage with [return_full] false keeps exactly the rows
    whose target cell is not NaN, in their original order; with
    [return_full] true it returns the very table it was given. *)
Theorem censor_drops_exactly_nan_rows (data : ref) (s : Tensor) (j : Z)
    (c : nat) :
  Py.index (ncols (load data s)) j = Some c ->
  (exists out,
     censor data j false s = (s, Ok out)
     /\ ncols (load out s) = ncols (load data s)
     /\ rows (load out s) = filter (not_nan_at c) (rows (load data s)))
  /\ censor data j true s = (s, Ok data).
Proof.
  intros Hc. split; [|reflexivity].
  unfold censor, get_column, select_rows, deref, bind, ret, column. simpl.
  rewrite Hc. eexists. split; [reflexivity|]. simpl.
  split; [reflexivity|apply mask_select_not_nan].
Qed.

Lemma censor_drops_exactly_nan_rows_witness :
  (exists out,
     censor Caller (-1) false one_group_shifted = (one_group_shifted, Ok out)
     /\ ncols (load out one_group_shifted)
        = ncols (load Caller one_group_shifted)
     /\ rows (load out one_group_shifted)
        = filter (not_nan_at 4) (rows (load Caller one_group_shifted)))
  /\ censor Caller (-1) true one_group_shifted
     = (one_group_shifted, Ok Caller).
Proof.
  apply (censor_drops_exactly_nan_rows Caller one_group_shifted (-1) 4).
  reflexivity.
Defined.

(** C10. Without an accelerator and with [force_cpu] false, the call raises
    as soon as [data] is read, whatever the table and the other options:
    nothing is returned and the caller's table is as it was. *)
Theorem unplaced_call_fails_first t cidx tidx steps return_full retain :
  call false t cidx tidx steps false return_full retain
  = (t, Raise UnboundLocalError).
Proof. apply call_unbound. Qed.
